(** * External data aggregator (external_api.py)

    A shallow embedding of the Pokemon proxy of the backend: the detail
    resolver [fetch_pokemon_details] with its process-wide cache, the page
    aggregator [get_pokemon_data] and the single-item lookup
    [get_pokemon_by_name].

    Python values decoded from JSON are the type [json]; a Python [int] is a
    [Z]; a [str] is the [string] of the bytes of its UTF-8 encoding, and the
    methods of str that go by the Unicode tables, [lower] and [strip], are
    the methods of the class [PyStr]; the module-level dict POKEMON_CACHE is
    a [gmap string Pokemon]; an exception is a value of [exn] and a
    computation that may raise returns a [result]. *)

From stdpp Require Import gmap strings list fin_maps sorting.
From Stdlib Require Import ZArith Ascii.

Local Open Scope Z_scope.

(** ** Python values and exceptions *)

(** What [response.json()] yields. [JObj] lists the items of a dict; a key is
    looked up from the front. *)
#[local] Unset Elimination Schemes.
Inductive json :=
  | JNull
  | JBool (b : bool)
  | JInt (n : Z)
  | JStr (s : string)
  | JArr (xs : list json)
  | JObj (items : list (string * json)).
#[local] Set Elimination Schemes.

(** The exceptions the module can meet. [HTTPException] is the framework's
    error response; its [detail] is either a fixed text or the f-string
    "Internal server error: {str(e)}" built from a caught exception [e]. *)
Inductive exn :=
  | KeyError (key : string)
  | TypeError
  | AttributeError
  | ValidationError
  | JSONDecodeError
  | TimeoutException
  | RequestError
  | ClientError
  | HTTPException (status_code : Z) (detail : detail)
with detail :=
  | Text (s : string)
  | InternalServerError (e : exn).

Inductive result (A : Type) :=
  | Return (a : A)
  | Raise (e : exn).
Arguments Return {A} a.
Arguments Raise {A} e.

Definition bind {A B} (m : result A) (f : A → result B) : result B :=
  match m with
  | Return a => f a
  | Raise e => Raise e
  end.

Notation "'let*' x := m 'in' k" := (bind m (fun x => k))
  (at level 10, x name, m at level 100, k at level 200, only parsing).

Definition of_option {A} (o : option A) (e : exn) : result A :=
  match o with
  | Some a => Return a
  | None => Raise e
  end.

(** [for x in xs: ...] collecting results; the first exception stops it. *)
Fixpoint traverse {A B} (f : A → result B) (xs : list A) : result (list B) :=
  match xs with
  | [] => Return []
  | x :: xs' =>
      let* y := f x in
      let* ys := traverse f xs' in
      Return (y :: ys)
  end.

(** ** Python primitives *)

Fixpoint assoc (k : string) (items : list (string * json)) : option json :=
  match items with
  | [] => None
  | (k', v) :: items' => if String.eqb k k' then Some v else assoc k items'
  end.

(** [v[k]] for a string key [k]: a dict answers or raises KeyError; every
    other value raises TypeError (a list or a str wants integer indices,
    None and numbers are not subscriptable). *)
Definition py_getitem (v : json) (k : string) : result json :=
  match v with
  | JObj items => of_option (assoc k items) (KeyError k)
  | _ => Raise TypeError
  end.

Definition chars (s : string) : list json :=
  (fun c => JStr (String c EmptyString)) <$> String.list_ascii_of_string s.

(** [for t in v]: a list gives its elements, a dict its keys, a str its
    characters; None and numbers are not iterable. *)
Definition py_iter (v : json) : result (list json) :=
  match v with
  | JArr xs => Return xs
  | JObj items => Return ((fun kv => JStr (fst kv)) <$> items)
  | JStr s => Return (chars s)
  | _ => Raise TypeError
  end.

(** [n < v] for an int [n]: bool is a subclass of int. *)
Definition py_lt_int (n : Z) (v : json) : result bool :=
  match v with
  | JInt m => Return (n <? m)
  | JBool b => Return (n <? Z.b2z b)
  | _ => Raise TypeError
  end.

(** [l[lo:hi]] with Python's clamping of the bounds. *)
Definition clamp (len i : Z) : Z :=
  if i <? 0 then Z.max 0 (i + len) else Z.min i len.

Definition py_slice {A} (l : list A) (lo hi : Z) : list A :=
  let len := Z.of_nat (length l) in
  let a := clamp len lo in
  let b := clamp len hi in
  take (Z.to_nat (b - a)) (drop (Z.to_nat a) l).

(** [needle in hay] on two strs: an occurrence of the bytes of [needle] in
    the bytes of [hay] is an occurrence of the one str in the other, UTF-8
    being self-synchronizing. *)
Fixpoint py_in (needle hay : string) : bool :=
  if String.prefix needle hay then true
  else match hay with
       | EmptyString => false
       | String _ hay' => py_in needle hay'
       end.

(** [s.lower()] and [s.strip()]. What they do to a str is laid down in the
    Unicode tables of the interpreter; the development takes them as they
    are and uses three facts about them: a lowercased str is its own
    lowercased form, the empty str and no other has the empty lowercased
    form, and the empty str has nothing to strip. *)
Class PyStr := {
  lower : string → string;
  strip : string → string;
  lower_idemp : ∀ s, lower (lower s) = lower s;
  lower_nil : ∀ s, lower s = EmptyString ↔ s = EmptyString;
  strip_nil : strip EmptyString = EmptyString
}.

(** ** The models *)

Module Pokemon.
Record t := mk {
  id : Z;
  name : string;
  height : Z;
  weight : Z;
  types : list string;
  image_url : option string
}.
End Pokemon.
Abbreviation Pokemon := Pokemon.t.

Module PokemonResponse.
Record t := mk {
  pokemon : list Pokemon;
  page : Z;
  total : Z;
  has_more : bool
}.
End PokemonResponse.
Abbreviation PokemonResponse := PokemonResponse.t.

(** ** The upstream API and the process state *)

(** An outbound GET: the list endpoint with its [offset] and [limit]
    parameters, or the detail endpoint POKEMON_API_URL + [name]. *)
Inductive request :=
  | ListRequest (offset limit : Z)
  | DetailRequest (name : string).

(** What [client.get] gives back: a response with its status code and, when
    the body decodes, the value of [response.json()]; or an exception. *)
Inductive reply :=
  | Response (status_code : Z) (body : option json)
  | Failure (e : exn).

(** The process state: the cache, and the requests sent so far, oldest
    first. *)
Record state := mkState {
  POKEMON_CACHE : gmap string Pokemon;
  requests : list request
}.

Definition sent (r : request) (st : state) : state :=
  {| POKEMON_CACHE := POKEMON_CACHE st; requests := requests st ++ [r] |}.

Definition cached (key : string) (p : Pokemon) (st : state) : state :=
  {| POKEMON_CACHE := <[key := p]> (POKEMON_CACHE st); requests := requests st |}.

(** [except (httpx.TimeoutException, httpx.RequestError)] *)
Definition request_error (e : exn) : bool :=
  match e with
  | TimeoutException | RequestError => true
  | _ => false
  end.

(** [except (KeyError, TypeError)] *)
Definition key_or_type_error (e : exn) : bool :=
  match e with
  | KeyError _ | TypeError => true
  | _ => false
  end.

(** A coroutine of [fetch_pokemon_details]: finished with its outcome, or
    suspended in [client.get] on request number [i] for [key]. *)
Inductive task :=
  | Done (o : result (option Pokemon))
  | Pending (key : string) (i : nat).

Definition task_value (t : task) : option (option Pokemon) :=
  match t with
  | Done (Return v) => Some v
  | _ => None
  end.

Definition task_exn (t : task) : option exn :=
  match t with
  | Done (Raise e) => Some e
  | _ => None
  end.

Definition first_exn (o : option exn) (r : result (option Pokemon)) : option exn :=
  match o, r with
  | Some e, _ => Some e
  | None, Raise e => Some e
  | None, Return _ => None
  end.

(** [if search:] holds for a str that is not empty; [truthy] is then that
    str. *)
Definition truthy (search : option string) : option string :=
  match search with
  | Some s => if String.eqb s "" then None else Some s
  | None => None
  end.

(** Pydantic's coercions, which differ between its versions: an int field
    may accept a numeric str, a str field may accept a number. *)
Class Pydantic := {
  int_of_str : string → option Z;
  str_of_scalar : json → option string
}.

(** ** The module's functions *)

Section Aggregator.

Context `{PyStr} `{Pydantic}.

(** The upstream API: the reply to request number [i] of the process. *)
Variable upstream : nat → request → reply.

(** Validation of an [int] field: an int, a bool (a subclass of int), or a
    str that the coercion accepts. *)
Definition validate_int (v : json) : option Z :=
  match v with
  | JInt n => Some n
  | JBool b => Some (Z.b2z b)
  | JStr s => int_of_str s
  | _ => None
  end.

(** Validation of a [str] field: a str, or a number that the coercion
    accepts; never None, a list or a dict. *)
Definition validate_str (v : json) : option string :=
  match v with
  | JStr s => Some s
  | JInt _ | JBool _ => str_of_scalar v
  | _ => None
  end.

(** Validation of an [Optional[str]] field. *)
Definition validate_optional_str (v : json) : option (option string) :=
  match v with
  | JNull => Some None
  | _ => Some <$> validate_str v
  end.

(** [Pokemon(id=.., name=.., height=.., weight=.., types=.., image_url=..)] *)
Definition new_Pokemon (id name height weight : json) (types : list json)
    (image_url : json) : result Pokemon :=
  of_option
    (i ← validate_int id;
     n ← validate_str name;
     h ← validate_int height;
     w ← validate_int weight;
     ts ← mapM validate_str types;
     u ← validate_optional_str image_url;
     Some (Pokemon.mk i n h w ts u))
    ValidationError.

(** The inner try of [fetch_pokemon_details] (lines 45-49). *)
Definition image_url_of (data : json) : result json :=
  match (let* sprites := py_getitem data "sprites" in
         let* other := py_getitem sprites "other" in
         let* artwork := py_getitem other "official-artwork" in
         py_getitem artwork "front_default") with
  | Return v => Return v
  | Raise e => if key_or_type_error e then Return JNull else Raise e
  end.

(** [[t["type"]["name"] for t in data["types"]]] *)
Definition type_names (data : json) : result (list json) :=
  let* types := py_getitem data "types" in
  let* ts := py_iter types in
  traverse (fun t => let* ty := py_getitem t "type" in py_getitem ty "name") ts.

(** Lines 42-58: from the decoded body to the record. *)
Definition parse_pokemon (data : json) : result Pokemon :=
  let* image_url := image_url_of data in
  let* id := py_getitem data "id" in
  let* name := py_getitem data "name" in
  let* height := py_getitem data "height" in
  let* weight := py_getitem data "weight" in
  let* types := type_names data in
  new_Pokemon id name height weight types image_url.

(** [fetch_pokemon_details] up to its suspension in [client.get]: the cache
    check, and on a miss the request for the lowercased name. *)
Definition fetch_start (name : string) (st : state) : task * state :=
  match POKEMON_CACHE st !! lower name with
  | Some p => (Done (Return (Some p)), st)
  | None =>
      (Pending (lower name) (length (requests st)),
       sent (DetailRequest (lower name)) st)
  end.

(** The body of the outer try once [client.get] has answered. *)
Definition fetch_body (key : string) (r : reply) (st : state)
    : result (option Pokemon) * state :=
  match r with
  | Failure e => (Raise e, st)
  | Response status_code body =>
      if status_code =? 200 then
        match (let* data := of_option body JSONDecodeError in
               parse_pokemon data) with
        | Return p => (Return (Some p), cached key p st)
        | Raise e => (Raise e, st)
        end
      else (Return None, st)
  end.

(** [fetch_pokemon_details] from its resumption on: the try body under its
    handler for the two httpx exceptions. *)
Definition fetch_finish (key : string) (r : reply) (st : state)
    : result (option Pokemon) * state :=
  match fetch_body key r st with
  | (Raise e, st') =>
      if request_error e then (Return None, st') else (Raise e, st')
  | returned => returned
  end.

(** [await fetch_pokemon_details(name)], run on its own. *)
Definition fetch_pokemon_details (name : string) (st : state)
    : result (option Pokemon) * state :=
  match fetch_start name st with
  | (Done o, st') => (o, st')
  | (Pending key i, st') => fetch_finish key (upstream i (DetailRequest key)) st'
  end.

(** [get_pokemon_by_name]: a model instance is truthy, only None is not. *)
Definition get_pokemon_by_name (pokemon_name : string) (st : state)
    : result Pokemon * state :=
  match fetch_pokemon_details pokemon_name st with
  | (Return (Some pokemon), st') => (Return pokemon, st')
  | (Return None, st') => (Raise (HTTPException 404 (Text "Pokemon not found")), st')
  | (Raise e, st') => (Raise e, st')
  end.

(** *** The concurrent fetches of a page

    [asyncio.gather] wraps every coroutine in a task. The tasks
    start in list order and each runs to its first suspension before the
    event loop looks at the network; then the replies arrive in some order,
    given here by the schedule [sched], a list of task indices. Indices that
    name no suspended task are skipped, and tasks the schedule leaves out
    finish afterwards in list order, so every list is a schedule. *)

(** One element of [tasks]: [name.lower()] on a value that is no str raises
    AttributeError when the coroutine starts. *)
Definition start_task (name : json) (st : state) : task * state :=
  match name with
  | JStr s => fetch_start s st
  | _ => (Done (Raise AttributeError), st)
  end.

Fixpoint spawn (names : list json) (st : state) : list task * state :=
  match names with
  | [] => ([], st)
  | name :: names' =>
      let '(t, st1) := start_task name st in
      let '(ts, st2) := spawn names' st1 in
      (t :: ts, st2)
  end.

(** The tasks, the first exception seen by [gather], and the state. *)
Definition pool : Type := list task * option exn * state.

(** The reply for task [j] arrives. *)
Definition complete (p : pool) (j : nat) : pool :=
  let '(ts, fe, st) := p in
  match ts !! j with
  | Some (Pending key i) =>
      let '(o, st') := fetch_finish key (upstream i (DetailRequest key)) st in
      (<[j := Done o]> ts, first_exn fe o, st')
  | _ => p
  end.

(** The exception of the first task, in list order, that failed at its
    start. *)
Fixpoint started_exn (ts : list task) : option exn :=
  match ts with
  | [] => None
  | t :: ts' =>
      match task_exn t with
      | Some e => Some e
      | None => started_exn ts'
      end
  end.

(** [await asyncio.gather] over the tasks: the list of results in task
    order, or the first exception raised by a task. The other tasks are not
    cancelled, the state returned is the state once all of them are
    through. *)
Definition gather (names : list json) (sched : list nat) (st : state)
    : result (list (option Pokemon)) * state :=
  let '(ts, st1) := spawn names st in
  let '(ts', fe, st2) :=
    foldl complete (ts, started_exn ts, st1) (sched ++ seq 0 (length ts)) in
  match fe with
  | Some e => (Raise e, st2)
  | None => (Return (omap task_value ts'), st2)
  end.

(** *** The page aggregator *)

(** [client.get(POKEMON_API_URL, params=..)] *)
Definition client_get (r : request) (st : state) : reply * state :=
  (upstream (length (requests st)) r, sent r st).

(** From the reply of the list call to [data] (lines 87-90, 121-124). *)
Definition list_data (r : reply) : result json :=
  match r with
  | Failure e => Raise e
  | Response status_code body =>
      if negb (status_code =? 200) then
        Raise (HTTPException status_code
                 (Text "Failed to fetch data from external API"))
      else of_option body JSONDecodeError
  end.

(** [item["name"].lower()] *)
Definition name_lower (item : json) : result string :=
  let* name := py_getitem item "name" in
  match name with
  | JStr s => Return (lower s)
  | _ => Raise AttributeError
  end.

(** [[item for item in results if search.lower() in item["name"].lower()]] *)
Fixpoint search_filter (search : string) (items : list json) : result (list json) :=
  match items with
  | [] => Return []
  | item :: items' =>
      let* name := name_lower item in
      let* rest := search_filter search items' in
      Return (if py_in (lower search) name then item :: rest else rest)
  end.

(** [[fetch_pokemon_details(item["name"]) for item in results]]: the
    arguments of the coroutines. *)
Definition task_names (results : list json) : result (list json) :=
  traverse (fun item => py_getitem item "name") results.

(** Lines 85-99: the search branch up to the page of filtered entries. *)
Definition search_page (page limit : Z) (search : string) (r : reply)
    : result (Z * list json) :=
  let* data := list_data r in
  let* results := py_getitem data "results" in
  let* items := py_iter results in
  let* results := search_filter search items in
  let offset := (page - 1) * limit in
  let total_filtered := Z.of_nat (length results) in
  let results := py_slice results offset (offset + limit) in
  let* names := task_names results in
  Return (total_filtered, names).

(** Lines 119-126 and the arguments of line 129. *)
Definition plain_page (r : reply) : result (json * list json) :=
  let* data := list_data r in
  let* results := py_getitem data "results" in
  let* total := py_getitem data "count" in
  let* items := py_iter results in
  let* names := task_names items in
  Return (total, names).

(** [[p for p in pokemons if p is not None]] *)
Definition not_None (pokemons : list (option Pokemon)) : list Pokemon :=
  omap (fun p => p) pokemons.

(** Lines 85-115: the branch taken when [search] is truthy. *)
Definition search_branch (page limit : Z) (search : string)
    (sched : list nat) (st : state) : result PokemonResponse * state :=
  let '(r, st1) := client_get (ListRequest 0 1000) st in
  match search_page page limit search r with
  | Raise e => (Raise e, st1)
  | Return (total_filtered, names) =>
      let offset := (page - 1) * limit in
      let '(pokemons, st2) := gather names sched st1 in
      (let* pokemons := pokemons in
       let has_more := offset + limit <? total_filtered in
       Return (PokemonResponse.mk (not_None pokemons) page
                 total_filtered has_more),
       st2)
  end.

(** Lines 118-142: the branch without search. The constructor of the
    response validates [total]. *)
Definition plain_branch (page limit : Z)
    (sched : list nat) (st : state) : result PokemonResponse * state :=
  let offset := (page - 1) * limit in
  let '(r, st1) := client_get (ListRequest offset limit) st in
  match plain_page r with
  | Raise e => (Raise e, st1)
  | Return (total, names) =>
      let '(pokemons, st2) := gather names sched st1 in
      (let* pokemons := pokemons in
       let* has_more := py_lt_int (offset + limit) total in
       let* total := of_option (validate_int total) ValidationError in
       Return (PokemonResponse.mk (not_None pokemons) page total has_more),
       st2)
  end.

(** The body of the try of [get_pokemon_data]. *)
Definition get_pokemon_data_body (page limit : Z) (search : option string)
    (sched : list nat) (st : state) : result PokemonResponse * state :=
  match truthy search with
  | Some s => search_branch page limit s sched st
  | None => plain_branch page limit sched st
  end.

(** [get_pokemon_data]: the body under [except Exception], which turns
    every exception of the body into a 500. *)
Definition get_pokemon_data (page limit : Z) (search : option string)
    (sched : list nat) (st : state) : result PokemonResponse * state :=
  match get_pokemon_data_body page limit search sched st with
  | (Raise e, st') => (Raise (HTTPException 500 (InternalServerError e)), st')
  | returned => returned
  end.

End Aggregator.

(** The constraints of the two [Query] declarations, which the framework
    checks before it calls [get_pokemon_data]. *)
Definition valid_query (page limit : Z) : Prop :=
  1 ≤ page ∧ 1 ≤ limit ≤ 50.

(** ** A sample upstream *)

Definition entry (name : string) : json :=
  JObj [("name", JStr name);
        ("url", JStr ("https://pokeapi.co/api/v2/pokemon/" +:+ name))].

Definition artwork (url : json) : json :=
  JObj [("other", JObj [("official-artwork", JObj [("front_default", url)])])].

Definition detail_json (id : Z) (name : string) (sprites : json) : json :=
  JObj [("id", JInt id); ("name", JStr name);
        ("height", JInt 7); ("weight", JInt 69);
        ("types", JArr [JObj [("slot", JInt 1);
                              ("type", JObj [("name", JStr "grass")])]]);
        ("sprites", sprites)].

Definition pokedex : list string :=
  ["bulbasaur"; "ivysaur"; "venusaur"; "charmander"; "charmeleon";
   "charizard"; "squirtle"; "wartortle"; "blastoise"; "caterpie";
   "metapod"; "butterfree"].

Fixpoint index_of (name : string) (names : list string) (i : Z) : option Z :=
  match names with
  | [] => None
  | n :: names' => if String.eqb n name then Some i else index_of name names' (i + 1)
  end.

(** Answers the list call with a count of 1302 and the requested slice of
    [pokedex], and the detail call for a name of [pokedex] with its record;
    the detail call for any other name is a 404. *)
Definition pokeapi (i : nat) (r : request) : reply :=
  match r with
  | ListRequest offset limit =>
      Response 200
        (Some (JObj [("count", JInt 1302);
                     ("results",
                      JArr (entry <$> py_slice pokedex offset (offset + limit)))]))
  | DetailRequest name =>
      match index_of name pokedex 1 with
      | Some id =>
          Response 200
            (Some (detail_json id name (artwork (JStr ("art/" +:+ name)))))
      | None => Response 404 None
      end
  end.

(** The same upstream, except that the detail call for [slow] times out. *)
Definition pokeapi_timeout (slow : string) (i : nat) (r : request) : reply :=
  match r with
  | DetailRequest name =>
      if String.eqb name slow then Failure TimeoutException else pokeapi i r
  | _ => pokeapi i r
  end.

(** The same upstream, except that the detail call for [name] fails in
    transport. *)
Definition pokeapi_refused (name : string) (i : nat) (r : request) : reply :=
  match r with
  | DetailRequest name' =>
      if String.eqb name' name then Failure RequestError else pokeapi i r
  | _ => pokeapi i r
  end.

(** An upstream whose list holds one name twice, and whose detail call
    number [i] answers with a record of id [i]. *)
Definition pokeapi_twins (i : nat) (r : request) : reply :=
  match r with
  | ListRequest _ _ =>
      Response 200
        (Some (JObj [("count", JInt 2);
                     ("results", JArr [entry "ivysaur"; entry "ivysaur"])]))
  | DetailRequest name =>
      Response 200 (Some (detail_json (Z.of_nat i) name (artwork JNull)))
  end.

(** The same upstream, except that the list call answers with [code]. *)
Definition pokeapi_down (code : Z) (i : nat) (r : request) : reply :=
  match r with
  | ListRequest _ _ => Response code None
  | _ => pokeapi i r
  end.

(** The same upstream, except that the detail call for [name] answers 200
    with a body that is no JSON. *)
Definition pokeapi_garbled (name : string) (i : nat) (r : request) : reply :=
  match r with
  | DetailRequest name' =>
      if String.eqb name' name then Response 200 None else pokeapi i r
  | _ => pokeapi i r
  end.

(** The two methods on strs of ASCII characters: [lower] maps 'A'..'Z' to
    'a'..'z', and [strip] takes away the whitespace 0x09-0x0d, 0x1c-0x20 at
    both ends. The examples run on this instance. *)
Definition ascii_lower (c : ascii) : ascii :=
  let n := N_of_ascii c in
  if ((65 <=? n) && (n <=? 90))%N then ascii_of_N (n + 32) else c.

Fixpoint lower_ascii (s : string) : string :=
  match s with
  | EmptyString => EmptyString
  | String c s' => String (ascii_lower c) (lower_ascii s')
  end.

Definition py_isspace (c : ascii) : bool :=
  let n := N_of_ascii c in
  (((9 <=? n) && (n <=? 13)) || ((28 <=? n) && (n <=? 32)))%N.

Fixpoint lstrip (s : string) : string :=
  match s with
  | EmptyString => EmptyString
  | String c s' => if py_isspace c then lstrip s' else s
  end.

Fixpoint rstrip (s : string) : string :=
  match s with
  | EmptyString => EmptyString
  | String c s' =>
      match rstrip s' with
      | EmptyString => if py_isspace c then EmptyString else String c EmptyString
      | t => String c t
      end
  end.

Definition strip_ascii (s : string) : string := rstrip (lstrip s).

#[export] Instance ascii_str : PyStr.
Proof.
  refine {| lower := lower_ascii; strip := strip_ascii |}.
  - intros s. induction s as [|c s IH]; simpl; [done|].
    f_equal; [|done]. by destruct c as [[] [] [] [] [] [] [] []].
  - by intros [|].
  - done.
Defined.

(** Pydantic without coercions between str and int. *)
#[export] Instance strict : Pydantic := {|
  int_of_str _ := None;
  str_of_scalar _ := None
|}.

Definition start : state := mkState ∅ [].

(** ** What a page does, entry by entry *)

(** The search term occurs in the name when letter case is ignored: the
    lowercased term is a part of the lowercased name. *)
Definition occurs_ignoring_case `{PyStr} (term name : string) : Prop :=
  ∃ pre post, lower name = pre +:+ lower term +:+ post.

(** [part] occurs in [s]. *)
Definition part_of (part s : string) : Prop :=
  ∃ pre post, s = pre +:+ part +:+ post.

(** A reply that makes the resolver return absence: a status that is not
    200, a timeout, or a transport failure. *)
Definition absence_reply (r : reply) : Prop :=
  match r with
  | Response status_code _ => status_code ≠ 200
  | Failure TimeoutException => True
  | Failure RequestError => True
  | Failure _ => False
  end.

(** The name of a list entry, when it has one that is a str. *)
Definition name_of (item : json) : option string :=
  match py_getitem item "name" with
  | Return (JStr n) => Some n
  | _ => None
  end.

(** The entry has a name in which the search term occurs. *)
Definition matches `{PyStr} (term : string) (item : json) : Prop :=
  ∃ n, name_of item = Some n ∧ occurs_ignoring_case term n.

(** The list call of a page request. *)
Definition list_request (page limit : Z) (search : option string) : request :=
  match truthy search with
  | Some _ => ListRequest 0 1000
  | None => ListRequest ((page - 1) * limit) limit
  end.

(** [v] has no field [k]: it is no dict, or a dict without the key. *)
Definition lacks (v : json) (k : string) : Prop :=
  ∀ x, py_getitem v k ≠ Return x.

(** The image path sprites / other / official-artwork / front_default of
    [data] ends early, at a field that is missing or in a container that is
    no dict, or it ends in null. *)
Definition image_absent (data : json) : Prop :=
  lacks data "sprites" ∨
  ∃ sprites, py_getitem data "sprites" = Return sprites ∧
    (lacks sprites "other" ∨
     ∃ other, py_getitem sprites "other" = Return other ∧
       (lacks other "official-artwork" ∨
        ∃ artwork, py_getitem other "official-artwork" = Return artwork ∧
          (lacks artwork "front_default" ∨
           py_getitem artwork "front_default" = Return JNull))).

(** Every key of the cache is a lowercased name. *)
Definition lowercase_keys `{PyStr} (cache : gmap string Pokemon) : Prop :=
  ∀ key, is_Some (cache !! key) → lower key = key.

Section Resolutions.

Context `{PyStr} `{Pydantic}.
Variable upstream : nat → request → reply.

(** What the resolution that waited for the reply [r] returns. *)
Definition reply_outcome (r : reply) : result (option Pokemon) :=
  match r with
  | Failure e => if request_error e then Return None else Raise e
  | Response status_code body =>
      if status_code =? 200 then
        match (let* data := of_option body JSONDecodeError in
               parse_pokemon data) with
        | Return p => Return (Some p)
        | Raise e => if request_error e then Return None else Raise e
        end
      else Return None
  end.

(** The outcome of a task, whenever its reply arrives. *)
Definition settle (t : task) : result (option Pokemon) :=
  match t with
  | Done o => o
  | Pending key i => reply_outcome (upstream i (DetailRequest key))
  end.

(** The outcomes of the resolutions of [names], in the order of [names]:
    each entry is answered from [cache], or by the reply to its own
    request; [i] numbers the next request. *)
Fixpoint resolutions (names : list json) (cache : gmap string Pokemon) (i : nat)
    : list (result (option Pokemon)) :=
  match names with
  | [] => []
  | JStr s :: names' =>
      match cache !! lower s with
      | Some p => Return (Some p) :: resolutions names' cache i
      | None =>
          reply_outcome (upstream i (DetailRequest (lower s)))
          :: resolutions names' cache (S i)
      end
  | _ :: names' => Raise AttributeError :: resolutions names' cache i
  end.

(** The requests the resolutions of [names] send, in order. *)
Fixpoint detail_requests (names : list json) (cache : gmap string Pokemon)
    : list request :=
  match names with
  | [] => []
  | JStr s :: names' =>
      match cache !! lower s with
      | Some _ => detail_requests names' cache
      | None => DetailRequest (lower s) :: detail_requests names' cache
      end
  | _ :: names' => detail_requests names' cache
  end.

(** What holds of the pool while the replies come in: the outcomes [os] the
    tasks settle to, the entries of the cache [cache] the tasks started
    from, and the requests [reqs] sent at the start. *)
Definition pool_ok (cache : gmap string Pokemon)
    (os : list (result (option Pokemon))) (reqs : list request) (p : pool)
    : Prop :=
  settle <$> p.1.1 = os ∧
  (p.1.2 = None ↔ ∀ j t, p.1.1 !! j = Some t → task_exn t = None) ∧
  (∀ j key i, p.1.1 !! j = Some (Pending key i) → cache !! key = None) ∧
  (∀ k q, cache !! k = Some q → POKEMON_CACHE p.2 !! k = Some q) ∧
  requests p.2 = reqs.

Definition settled (ts : list task) (j : nat) : Prop :=
  ∀ key i, ts !! j ≠ Some (Pending key i).

(** The names of the list entries of the page, in the order of the
    upstream list, as the list call of the request returns them. *)
Definition page_names (page limit : Z) (search : option string) (st : state)
    : result (list json) :=
  let r := upstream (length (requests st)) (list_request page limit search) in
  match truthy search with
  | Some s => let* page := search_page page limit s r in Return page.2
  | None => let* page := plain_page r in Return page.2
  end.

(** The fields of [data] other than the image are there and validate. *)
Definition other_fields (data : json) (i : Z) (n : string) (h w : Z)
    (ts : list string) : Prop :=
  ∃ id name height weight types,
    py_getitem data "id" = Return id ∧ validate_int id = Some i ∧
    py_getitem data "name" = Return name ∧ validate_str name = Some n ∧
    py_getitem data "height" = Return height ∧ validate_int height = Some h ∧
    py_getitem data "weight" = Return weight ∧ validate_int weight = Some w ∧
    type_names data = Return types ∧ mapM validate_str types = Some ts.

End Resolutions.

(** ** The timeline (timeline.py) *)

(** A [datetime] is the number of microseconds since the epoch. *)
Module TimelineEvent.
Record t := mk {
  id : Z;
  title : string;
  description : string;
  timestamp : Z;
  message : string;
  type : string
}.
End TimelineEvent.
Abbreviation TimelineEvent := TimelineEvent.t.

(** [timedelta(days=.., hours=.., minutes=..)] *)
Definition timedelta (days hours minutes : Z) : Z :=
  ((days * 24 + hours) * 60 + minutes) * 60000000.

(** The module-level list; [now i] is what the call number [i] of
    [datetime.now()] returns while the module is loaded. *)
Definition TIMELINE_EVENTS (now : nat → Z) : list TimelineEvent := [
  TimelineEvent.mk 1 "Patient Admitted" "Patient admitted to the hospital"
    (now 0%nat - timedelta 2 0 0) "Patient John Doe admitted." "Audit";
  TimelineEvent.mk 2 "Initial Assessment" "Nurse performed initial assessment"
    (now 1%nat - timedelta 1 5 0) "Initial assessment completed by Nurse Jane."
    "Note";
  TimelineEvent.mk 3 "Medication Administered"
    "Administered prescribed medication"
    (now 2%nat - timedelta 0 20 0) "Administered 500mg of medication X." "Audit";
  TimelineEvent.mk 4 "Follow-up Visit" "Doctor's follow-up visit"
    (now 3%nat - timedelta 0 10 0) "Follow-up visit by Dr. Smith." "Note";
  TimelineEvent.mk 5 "Discharge Planning" "Planning for patient discharge"
    (now 4%nat - timedelta 0 2 0) "Discharge planning initiated." "Audit";
  TimelineEvent.mk 6 "Patient Discharged" "Patient discharged from the hospital"
    (now 5%nat - timedelta 0 0 30) "Patient John Doe discharged." "Audit";
  TimelineEvent.mk 7 "Post-Discharge Call" "Nurse called patient post-discharge"
    (now 6%nat - timedelta 0 0 10) "Post-discharge call completed." "Note";
  TimelineEvent.mk 8 "Lab Results Received" "Received lab results for patient"
    (now 7%nat - timedelta 0 1 0) "Lab results for patient John Doe received."
    "Audit";
  TimelineEvent.mk 9 "Physical Therapy Session"
    "Conducted physical therapy session"
    (now 8%nat - timedelta 0 3 0) "Physical therapy session completed." "Note";
  TimelineEvent.mk 10 "Dietary Consultation"
    "Dietary consultation with nutritionist"
    (now 9%nat - timedelta 0 4 0) "Dietary consultation conducted." "Note";
  TimelineEvent.mk 11 "Medication Review" "Reviewed patient's medications"
    (now 10%nat - timedelta 0 6 0) "Medication review completed." "Audit";
  TimelineEvent.mk 12 "Vaccination Administered" "Administered flu vaccination"
    (now 11%nat - timedelta 0 8 0) "Flu vaccination administered." "Audit"
].

(** [sorted(xs, key=key, reverse=True)]: descending by key; the sort is
    stable, entries with equal keys keep their order. *)
Fixpoint insert_desc {A} (key : A → Z) (x : A) (l : list A) : list A :=
  match l with
  | [] => [x]
  | y :: l' => if key x <? key y then y :: insert_desc key x l' else x :: y :: l'
  end.

Definition sorted_reverse {A} (key : A → Z) (l : list A) : list A :=
  foldr (insert_desc key) [] l.

(** [if limit:] holds for an int that is not 0; [nonzero] is then that
    int. *)
Definition nonzero (limit : option Z) : option Z :=
  match limit with
  | Some n => if n =? 0 then None else Some n
  | None => None
  end.

(** [get_timeline], over the module-level list [events]. *)
Definition get_timeline (events : list TimelineEvent)
    (type : option string) (limit : option Z) : list TimelineEvent :=
  let events :=
    match truthy type with
    | Some type => filter (λ event, TimelineEvent.type event = type) events
    | None => events
    end in
  let events := sorted_reverse TimelineEvent.timestamp events in
  match nonzero limit with
  | Some limit => py_slice events 0 limit
  | None => events
  end.

(** [get_timeline_event], over the module-level list [events]. *)
Fixpoint get_timeline_event (events : list TimelineEvent) (event_id : Z)
    : result TimelineEvent :=
  match events with
  | [] => Raise (HTTPException 404 (Text "Timeline event not found"))
  | event :: events' =>
      if TimelineEvent.id event =? event_id then Return event
      else get_timeline_event events' event_id
  end.

(** ** The chat (chat.py) *)

Module ChatMessage.
Record t := mk {
  id : Z;
  sender : string;
  message : string;
  timestamp : Z
}.
End ChatMessage.
Abbreviation ChatMessage := ChatMessage.t.

Module ChatRequest.
Record t := mk {
  sender : string;
  message : string
}.
End ChatRequest.
Abbreviation ChatRequest := ChatRequest.t.

Module ChatResponse.
Record t := mk {
  reply : ChatMessage;
  bot_response : ChatMessage
}.
End ChatResponse.
Abbreviation ChatResponse := ChatResponse.t.

(** The two module-level variables. *)
Record chat := mkChat {
  CHAT_MESSAGES : list ChatMessage;
  message_id_counter : Z
}.

Definition chat_start : chat := mkChat [] 1.

Definition BOT_REPLIES : list string := [
  "Hello! How can I assist you today?";
  "I'm here to help! What do you need?";
  "Can you please provide more details?";
  "Thank you for reaching out!";
  "I'm glad to assist you with that.";
  "Let me check that for you.";
  "Could you clarify your question?";
  "I'm here to support you!";
  "What else can I do for you?";
  "Feel free to ask me anything!"
].

(** The items of the dict, in the order of insertion, which is the order
    in which [.items()] yields them. *)
Definition KEYWORD_REPLIES : list (string * string) := [
  ("hello", "Hi there! How can I help you?");
  ("help", "Sure! What do you need assistance with?");
  ("thanks", "You're welcome! Let me know if you have more questions.");
  ("problem", "I'm sorry to hear that. Can you tell me more about the problem?");
  ("issue", "Let's see how we can resolve that issue together.")
].

(** The loop of [generate_bot_reply] over the items. *)
Fixpoint keyword_reply (items : list (string * string)) (message_lower : string)
    : option string :=
  match items with
  | [] => None
  | (keyword, reply) :: items' =>
      if py_in keyword message_lower then Some reply
      else keyword_reply items' message_lower
  end.

(** [random.choice(seq)] with the index the generator draws, here
    [choice] modulo the length. *)
Definition random_choice (seq : list string) (choice : nat) : string :=
  nth (choice `mod` length seq) seq "".

Definition generate_bot_reply `{PyStr} (choice : nat) (user_message : string)
    : string :=
  let message_lower := lower user_message in
  match keyword_reply KEYWORD_REPLIES message_lower with
  | Some reply => reply
  | None => random_choice BOT_REPLIES choice
  end.

(** [create_chat_message]; [now] is what [datetime.now()] returns. *)
Definition create_chat_message (sender message : string) (now : Z) (st : chat)
    : ChatMessage * chat :=
  (ChatMessage.mk (message_id_counter st) sender message now,
   mkChat (CHAT_MESSAGES st) (message_id_counter st + 1)).

Definition append (m : ChatMessage) (st : chat) : chat :=
  mkChat (CHAT_MESSAGES st ++ [m]) (message_id_counter st).

(** [post_chat_message] up to [await asyncio.sleep(1)]. *)
Definition post_begin `{PyStr} (chat_request : ChatRequest) (now : Z) (st : chat)
    : result ChatMessage * chat :=
  if String.eqb (strip (ChatRequest.message chat_request)) "" then
    (Raise (HTTPException 400 (Text "Message cannot be empty")), st)
  else
    let '(user_message, st1) :=
      create_chat_message (ChatRequest.sender chat_request)
        (ChatRequest.message chat_request) now st in
    (Return user_message, append user_message st1).

(** [post_chat_message] after the sleep. *)
Definition post_end `{PyStr} (chat_request : ChatRequest)
    (user_message : ChatMessage) (choice : nat) (now : Z) (st : chat)
    : ChatResponse * chat :=
  let bot_reply_text :=
    generate_bot_reply choice (ChatRequest.message chat_request) in
  let '(bot_message, st1) := create_chat_message "Bot" bot_reply_text now st in
  (ChatResponse.mk user_message bot_message, append bot_message st1).

(** [post_chat_message] when no other request runs during the sleep. *)
Definition post_chat_message `{PyStr} (chat_request : ChatRequest) (now1 : Z)
    (choice : nat) (now2 : Z) (st : chat) : result ChatResponse * chat :=
  match post_begin chat_request now1 st with
  | (Raise e, st1) => (Raise e, st1)
  | (Return user_message, st1) =>
      let '(response, st2) :=
        post_end chat_request user_message choice now2 st1 in
      (Return response, st2)
  end.

(** One step of some request to [post_chat_message]: its part before the
    sleep or its part after. Requests that sleep at the same time take
    their steps in any order. *)
Inductive chat_step `{PyStr} : chat → chat → Prop :=
  | step_begin chat_request now st :
      chat_step st (post_begin chat_request now st).2
  | step_end chat_request user_message choice now st :
      chat_step st (post_end chat_request user_message choice now st).2.

(** [get_chat_messages] *)
Definition get_chat_messages (limit : option Z) (sender : option string)
    (st : chat) : list ChatMessage :=
  let messages := CHAT_MESSAGES st in
  let messages :=
    match truthy sender with
    | Some sender => filter (λ msg, ChatMessage.sender msg = sender) messages
    | None => messages
    end in
  let messages := sorted_reverse ChatMessage.timestamp messages in
  match nonzero limit with
  | Some limit => py_slice messages 0 limit
  | None => messages
  end.

(** ** Strings and slices *)

Lemma append_nil (s : string) : "" +:+ s = s.
Proof. reflexivity. Qed.

Lemma append_cons (c : ascii) (s t : string) :
  String c s +:+ t = String c (s +:+ t).
Proof. reflexivity. Qed.

Ltac unappend := rewrite ?append_nil, ?append_cons in *.

Lemma prefix_app (p s : string) :
  String.prefix p s = true ↔ ∃ t, s = p +:+ t.
Proof.
  revert s. induction p as [|c p IH]; intros s.
  - destruct s; simpl; split; eauto.
  - destruct s as [|d s]; simpl.
    + split; [done|]. by intros [t ?].
    + destruct (Ascii.ascii_dec c d) as [->|Hne].
      * rewrite IH. split; intros [t Ht]; exists t; unappend; congruence.
      * split; [done|]. intros [t Ht]. unappend. congruence.
Qed.

Lemma py_in_unfold (needle hay : string) :
  py_in needle hay =
  if String.prefix needle hay then true
  else match hay with
       | EmptyString => false
       | String _ hay' => py_in needle hay'
       end.
Proof. by destruct hay. Qed.

(** Python's [in] on strs is the substring test. *)
Lemma py_in_spec (needle hay : string) :
  py_in needle hay = true ↔ ∃ pre post, hay = pre +:+ needle +:+ post.
Proof.
  induction hay as [|c hay IH]; rewrite py_in_unfold.
  - destruct (String.prefix needle "") eqn:Hp.
    + apply prefix_app in Hp as [t Ht]. split; [|done].
      intros _. by exists "", t.
    + split; [done|]. intros (pre & post & H).
      destruct pre; [|done]. unappend.
      assert (String.prefix needle "" = true) by (apply prefix_app; eauto).
      congruence.
  - destruct (String.prefix needle (String c hay)) eqn:Hp.
    + apply prefix_app in Hp as [t Ht]. split; [|done].
      intros _. by exists "", t.
    + rewrite IH. split.
      * intros (pre & post & ->). by exists (String c pre), post.
      * intros (pre & post & H). destruct pre as [|d pre]; unappend.
        -- assert (String.prefix needle (String c hay) = true)
             by (apply prefix_app; eauto).
           congruence.
        -- injection H as _ ->. eauto.
Qed.

(** The test of the filter, [search.lower() in name.lower()], is the
    occurrence of the term in the name with letter case ignored. *)
Lemma py_in_lower `{PyStr} (term name : string) :
  py_in (lower term) (lower name) = true ↔ occurs_ignoring_case term name.
Proof. apply py_in_spec. Qed.

(** With the bounds of a page, the slice is [limit] entries after the first
    [offset]. *)
Lemma py_slice_page {A} (l : list A) (page limit : Z) :
  valid_query page limit →
  py_slice l ((page - 1) * limit) ((page - 1) * limit + limit)
  = take (Z.to_nat limit) (drop (Z.to_nat ((page - 1) * limit)) l).
Proof.
  intros [Hp [Hl _]]. unfold py_slice, clamp.
  set (o := (page - 1) * limit).
  assert (0 ≤ o) by (unfold o; nia).
  destruct (Z.ltb_spec o 0); [lia|].
  destruct (Z.ltb_spec (o + limit) 0); [lia|].
  destruct (Z.le_gt_cases (Z.of_nat (length l)) o) as [Hge|Hlt].
  - rewrite !drop_ge by lia. by rewrite !take_nil.
  - rewrite (Z.min_l o) by lia.
    destruct (Z.le_gt_cases (o + limit) (Z.of_nat (length l))).
    + rewrite Z.min_l by lia. f_equal. lia.
    + rewrite Z.min_r by lia.
      rewrite !take_ge; [done| |]; rewrite length_drop; lia.
Qed.

(** ** The detail resolver *)

Section Resolver.

Context `{PyStr} `{Pydantic}.
Variable upstream : nat → request → reply.

Lemma fetch_finish_eq (key : string) (r : reply) (st : state) :
  fetch_finish key r st =
  (reply_outcome r,
   match reply_outcome r with
   | Return (Some p) => cached key p st
   | _ => st
   end).
Proof.
  unfold fetch_finish, fetch_body, reply_outcome.
  destruct r as [code body|e].
  - destruct (code =? 200); [|done].
    destruct (bind _ _) as [p|e]; [done|].
    by destruct (request_error e).
  - by destruct (request_error e).
Qed.

(** A cached name is answered from the cache: no request, no write. *)
Lemma fetch_hit (name : string) (p : Pokemon) (st : state) :
  POKEMON_CACHE st !! lower name = Some p →
  fetch_pokemon_details upstream name st = (Return (Some p), st).
Proof. intros Hp. unfold fetch_pokemon_details, fetch_start. by rewrite Hp. Qed.

(** A name that is not cached costs one request, and its reply decides. *)
Lemma fetch_miss (name : string) (st : state) :
  POKEMON_CACHE st !! lower name = None →
  fetch_pokemon_details upstream name st =
  fetch_finish (lower name)
    (upstream (length (requests st)) (DetailRequest (lower name)))
    (sent (DetailRequest (lower name)) st).
Proof. intros Hp. unfold fetch_pokemon_details, fetch_start. by rewrite Hp. Qed.

(** Whatever a resolution does, the entries the cache holds stay as they
    are. *)
Lemma fetch_keeps (name key : string) (p : Pokemon) (st st' : state)
    (o : result (option Pokemon)) :
  POKEMON_CACHE st !! key = Some p →
  fetch_pokemon_details upstream name st = (o, st') →
  POKEMON_CACHE st' !! key = Some p.
Proof.
  intros Hkey Hrun.
  destruct (POKEMON_CACHE st !! lower name) as [q|] eqn:Hname.
  - rewrite (fetch_hit _ _ _ Hname) in Hrun. by injection Hrun as _ <-.
  - rewrite (fetch_miss _ _ Hname), fetch_finish_eq in Hrun.
    injection Hrun as _ <-.
    assert (lower name ≠ key) by congruence.
    destruct (reply_outcome _) as [[q|]|e]; simpl; [|done..].
    by rewrite lookup_insert_ne.
Qed.

(** A resolution run on its own writes the cache at most once, under its
    lowercased name, and only when that name was not cached. *)
Lemma fetch_writes (name : string) (st st' : state)
    (o : result (option Pokemon)) :
  fetch_pokemon_details upstream name st = (o, st') →
  POKEMON_CACHE st' = POKEMON_CACHE st ∨
  POKEMON_CACHE st !! lower name = None ∧
  ∃ p, o = Return (Some p) ∧
       POKEMON_CACHE st' = <[lower name := p]> (POKEMON_CACHE st).
Proof.
  intros Hrun.
  destruct (POKEMON_CACHE st !! lower name) as [q|] eqn:Hname.
  - rewrite (fetch_hit _ _ _ Hname) in Hrun. injection Hrun as _ <-. by left.
  - rewrite (fetch_miss _ _ Hname), fetch_finish_eq in Hrun.
    injection Hrun as <- <-.
    destruct (reply_outcome _) as [[p|]|e]; [|by left..].
    right. split; [done|]. by exists p.
Qed.

(** A resolution that returns a record leaves it in the cache under the
    lowercased name. *)
Lemma fetch_caches (name : string) (p : Pokemon) (st st' : state) :
  fetch_pokemon_details upstream name st = (Return (Some p), st') →
  POKEMON_CACHE st' !! lower name = Some p.
Proof.
  intros Hrun.
  destruct (POKEMON_CACHE st !! lower name) as [q|] eqn:Hname.
  - rewrite (fetch_hit _ _ _ Hname) in Hrun. by injection Hrun as <- <-.
  - rewrite (fetch_miss _ _ Hname), fetch_finish_eq in Hrun.
    injection Hrun as Ho <-. rewrite Ho. simpl. apply lookup_insert_eq.
Qed.

End Resolver.

(** ** The concurrent fetches *)

Section Gather.

Context `{PyStr} `{Pydantic}.
Variable upstream : nat → request → reply.

Lemma sent_length (r : request) (st : state) :
  length (requests (sent r st)) = S (length (requests st)).
Proof. simpl. rewrite length_app. simpl. lia. Qed.

(** Starting the tasks sends the requests of the entries that are not
    cached, and leaves the cache alone. *)
Lemma spawn_spec (names : list json) (st : state) :
  POKEMON_CACHE (spawn names st).2 = POKEMON_CACHE st ∧
  requests (spawn names st).2
  = requests st ++ detail_requests names (POKEMON_CACHE st) ∧
  settle upstream <$> (spawn names st).1
  = resolutions upstream names (POKEMON_CACHE st) (length (requests st)) ∧
  (∀ j key i, (spawn names st).1 !! j = Some (Pending key i) →
              POKEMON_CACHE st !! key = None).
Proof.
  revert st. induction names as [|name names IH]; intros st.
  { simpl. rewrite app_nil_r. repeat split; [done..|]. intros j ?? Hj. done. }
  assert (Hskip : ∀ o, start_task name st = (Done o, st) →
    (∀ names' i, resolutions upstream (name :: names') (POKEMON_CACHE st) i
                 = o :: resolutions upstream names' (POKEMON_CACHE st) i) →
    (∀ names', detail_requests (name :: names') (POKEMON_CACHE st)
               = detail_requests names' (POKEMON_CACHE st)) →
    POKEMON_CACHE (spawn (name :: names) st).2 = POKEMON_CACHE st ∧
    requests (spawn (name :: names) st).2
    = requests st ++ detail_requests (name :: names) (POKEMON_CACHE st) ∧
    settle upstream <$> (spawn (name :: names) st).1
    = resolutions upstream (name :: names) (POKEMON_CACHE st)
        (length (requests st)) ∧
    (∀ j key i, (spawn (name :: names) st).1 !! j = Some (Pending key i) →
                POKEMON_CACHE st !! key = None)).
  { intros o Hstart Hres Hreq. rewrite Hres, Hreq. simpl spawn. rewrite Hstart.
    destruct (IH st) as (Hc & Hr & Hs & Hp).
    destruct (spawn names st) as [ts st2]. cbn [fst snd] in *.
    rewrite fmap_cons, Hs. repeat split; [done|done|].
    intros [|j] key i Hj; [done|]. by eapply Hp. }
  destruct name as [| | |s| |];
    try (by apply (Hskip (Raise AttributeError))).
  destruct (POKEMON_CACHE st !! lower s) as [p|] eqn:Hcache.
  { apply (Hskip (Return (Some p))).
    - simpl. unfold fetch_start. by rewrite Hcache.
    - intros. simpl. by rewrite Hcache.
    - intros. simpl. by rewrite Hcache. }
  clear Hskip. simpl spawn. unfold fetch_start. rewrite Hcache.
  destruct (IH (sent (DetailRequest (lower s)) st)) as (Hc & Hr & Hs & Hp).
  destruct (spawn names _) as [ts st2]. cbn [fst snd] in *.
  rewrite fmap_cons, Hs, sent_length. simpl. rewrite Hcache. repeat split.
  - done.
  - rewrite Hr. simpl. by rewrite <- app_assoc.
  - intros [|j] key i Hj; [by injection Hj as <- _|]. by eapply Hp.
Qed.

Lemma complete_eq (ts : list task) (fe : option exn) (st : state) (j : nat) :
  complete upstream (ts, fe, st) j =
  match ts !! j with
  | Some (Pending key i) =>
      let o := reply_outcome (upstream i (DetailRequest key)) in
      (<[j := Done o]> ts, first_exn fe o,
       match o with
       | Return (Some p) => cached key p st
       | _ => st
       end)
  | _ => (ts, fe, st)
  end.
Proof.
  unfold complete. destruct (ts !! j) as [[o|key i]|]; [done| |done].
  by rewrite fetch_finish_eq.
Qed.

Lemma complete_ok cache os reqs (p : pool) (j : nat) :
  pool_ok upstream cache os reqs p → pool_ok upstream cache os reqs (complete upstream p j).
Proof.
  destruct p as [[ts fe] st]. rewrite complete_eq.
  destruct (ts !! j) as [[o|key i]|] eqn:Hj; [done| |done].
  intros (Hos & Hfe & Hpend & Hcache & Hreqs). unfold pool_ok in *.
  cbn [fst snd] in *.
  set (o := reply_outcome (upstream i (DetailRequest key))).
  assert (Hlt : (j < length ts)%nat) by by eapply lookup_lt_Some.
  repeat split.
  - rewrite list_fmap_insert. rewrite <- Hos. apply list_insert_id.
    by rewrite list_lookup_fmap, Hj.
  - intros Hnone k t Hk.
    destruct (decide (j = k)) as [<-|Hne].
    + rewrite list_lookup_insert_eq in Hk by done. injection Hk as <-.
      destruct fe, o; done.
    + rewrite list_lookup_insert_ne in Hk by done.
      apply Hfe in Hk; [done|]. by destruct fe.
  - intros Hall.
    assert (task_exn (Done o) = None) as Ho.
    { apply (Hall j). by rewrite list_lookup_insert_eq. }
    assert (fe = None) as ->.
    { apply Hfe. intros k t Hk.
      destruct (decide (j = k)) as [<-|Hne]; [by simplify_eq|].
      apply (Hall k). by rewrite list_lookup_insert_ne. }
    by destruct o.
  - intros k key' i' Hk.
    destruct (decide (j = k)) as [<-|Hne].
    + by rewrite list_lookup_insert_eq in Hk.
    + rewrite list_lookup_insert_ne in Hk by done. by eapply Hpend.
  - intros k q Hk. specialize (Hpend _ _ _ Hj).
    assert (key ≠ k) by congruence.
    destruct o as [[p|]|e]; simpl; [|by apply Hcache..].
    rewrite lookup_insert_ne by done. by apply Hcache.
  - by destruct o as [[p|]|e].
Qed.

Lemma foldl_complete_ok cache os reqs (l : list nat) (p : pool) :
  pool_ok upstream cache os reqs p → pool_ok upstream cache os reqs (foldl (complete upstream) p l).
Proof.
  revert p. induction l as [|j l IH]; intros p Hp; [done|].
  simpl. by apply IH, complete_ok.
Qed.

Lemma complete_settles (p : pool) (j : nat) : settled (complete upstream p j).1.1 j.
Proof.
  destruct p as [[ts fe] st]. rewrite complete_eq. intros key i.
  destruct (ts !! j) as [[o|key' i']|] eqn:Hj; cbn [fst]; [congruence| |congruence].
  rewrite list_lookup_insert_eq; [done|]. by eapply lookup_lt_Some.
Qed.

Lemma complete_settled (p : pool) (j k : nat) :
  settled p.1.1 k → settled (complete upstream p j).1.1 k.
Proof.
  destruct p as [[ts fe] st]. rewrite complete_eq. intros Hk key i.
  destruct (ts !! j) as [[o|key' i']|] eqn:Hj; cbn [fst] in *; [done| |done].
  destruct (decide (j = k)) as [<-|Hne].
  - rewrite list_lookup_insert_eq; [done|]. by eapply lookup_lt_Some.
  - rewrite list_lookup_insert_ne by done. apply Hk.
Qed.

Lemma foldl_complete_settled (l : list nat) (p : pool) (k : nat) :
  settled p.1.1 k → settled (foldl (complete upstream) p l).1.1 k.
Proof.
  revert p. induction l as [|j l IH]; intros p Hp; [done|].
  simpl. by apply IH, complete_settled.
Qed.

Lemma foldl_complete_settles (l : list nat) (p : pool) (k : nat) :
  k ∈ l → settled (foldl (complete upstream) p l).1.1 k.
Proof.
  revert p. induction l as [|j l IH]; intros p Hk; [by apply elem_of_nil in Hk|].
  simpl. apply elem_of_cons in Hk as [->|Hk].
  - apply foldl_complete_settled, complete_settles.
  - by apply IH.
Qed.

Lemma complete_length (p : pool) (j : nat) :
  length (complete upstream p j).1.1 = length p.1.1.
Proof.
  destruct p as [[ts fe] st]. rewrite complete_eq.
  destruct (ts !! j) as [[o|key' i']|]; cbn [fst]; [done| |done].
  apply length_insert.
Qed.

Lemma foldl_complete_length (l : list nat) (p : pool) :
  length (foldl (complete upstream) p l).1.1 = length p.1.1.
Proof.
  revert p. induction l as [|j l IH]; intros p; [done|].
  simpl. by rewrite IH, complete_length.
Qed.

(** Once every task has its reply, the tasks hold the outcomes. *)
Lemma all_settled (ts : list task) (os : list (result (option Pokemon))) :
  settle upstream <$> ts = os → (∀ j, settled ts j) → ts = Done <$> os.
Proof.
  intros <- Hall. rewrite <- list_fmap_compose.
  rewrite <- (list_fmap_id ts) at 1. apply list_fmap_ext.
  intros j [o|key i] Hj; [done|]. by destruct (Hall j key i).
Qed.

Lemma started_exn_None (ts : list task) :
  started_exn ts = None ↔ ∀ j t, ts !! j = Some t → task_exn t = None.
Proof.
  induction ts as [|t ts IH]; simpl.
  - split; [|done]. intros _ j t Hj. by rewrite lookup_nil in Hj.
  - destruct (task_exn t) as [e|] eqn:He.
    + split; [done|]. intros Hall. specialize (Hall 0%nat t eq_refl). congruence.
    + rewrite IH. split.
      * intros Hall [|j] t' Hj; simpl in Hj; [by injection Hj as <-|].
        by eapply Hall.
      * intros Hall j t' Hj. by apply (Hall (S j)).
Qed.

Lemma values_Return (vs : list (option Pokemon)) :
  omap task_value (Done <$> (Return <$> vs)) = vs.
Proof.
  induction vs as [|v vs IH]; [done|].
  rewrite !fmap_cons. cbn [omap list_omap task_value]. by rewrite IH.
Qed.

Lemma Return_fmap_inj {A} (xs ys : list A) :
  Return <$> xs = Return <$> ys → xs = ys.
Proof.
  revert ys. induction xs as [|x xs IH]; intros [|y ys] Heq; try done.
  rewrite !fmap_cons in Heq. injection Heq as -> Heq. f_equal. by apply IH.
Qed.

Lemma outcomes_Return (os : list (result (option Pokemon))) :
  (∀ j t, (Done <$> os) !! j = Some t → task_exn t = None) →
  ∃ vs, os = Return <$> vs.
Proof.
  induction os as [|o os IH]; intros Hall; [by exists []|].
  destruct IH as [vs ->]; [intros j t Hj; by apply (Hall (S j))|].
  specialize (Hall 0%nat (Done o) eq_refl). destruct o as [v|e]; [|done].
  by exists (v :: vs).
Qed.

(** [gather] returns the outcomes of the resolutions in the order of the
    names, whatever the schedule; it sends the requests of the entries that
    are not cached and keeps every entry the cache had. *)
Lemma gather_spec (names : list json) (sched : list nat) (st : state) :
  let os := resolutions upstream names (POKEMON_CACHE st) (length (requests st)) in
  (∀ vs, (gather upstream names sched st).1 = Return vs ↔ os = Return <$> vs) ∧
  requests (gather upstream names sched st).2
  = requests st ++ detail_requests names (POKEMON_CACHE st) ∧
  (∀ k q, POKEMON_CACHE st !! k = Some q →
          POKEMON_CACHE (gather upstream names sched st).2 !! k = Some q).
Proof.
  intros os. unfold gather.
  destruct (spawn_spec names st) as (Hc & Hr & Hs & Hp).
  destruct (spawn names st) as [ts st1]. cbn [fst snd] in *.
  set (l := sched ++ seq 0 (length ts)).
  assert (pool_ok upstream (POKEMON_CACHE st) os
            (requests st ++ detail_requests names (POKEMON_CACHE st))
            (foldl (complete upstream) (ts, started_exn ts, st1) l)) as Hok.
  { apply foldl_complete_ok. unfold pool_ok. cbn [fst snd].
    split; [done|]. split; [apply started_exn_None|].
    split; [done|]. split; [|done]. intros k q. by rewrite Hc. }
  assert (∀ j, settled (foldl (complete upstream) (ts, started_exn ts, st1) l).1.1 j)
    as Hall.
  { intros j. destruct (decide (j < length ts)%nat) as [Hlt|Hge].
    - apply foldl_complete_settles. unfold l. apply elem_of_app. right.
      apply elem_of_seq. lia.
    - intros key i Hj. apply lookup_lt_Some in Hj.
      rewrite foldl_complete_length in Hj. simpl in Hj. lia. }
  destruct (foldl _ _ l) as [[ts' fe] st2]. cbn [fst snd] in *.
  destruct Hok as (Hos & Hfe & _ & Hcache & Hreqs). cbn [fst snd] in *.
  apply all_settled in Hos; [|done]. subst ts'.
  split; [|by destruct fe]. intros vs. destruct fe as [e|]; cbn [fst].
  - split; [done|]. intros Hvs. rewrite Hvs in Hfe.
    assert (Some e = None) as Hno; [|done]. apply Hfe. intros j t Hj.
    rewrite <- list_fmap_compose in Hj. apply list_lookup_fmap_Some in Hj.
    by destruct Hj as (v & -> & _).
  - destruct (outcomes_Return os) as [vs' Hvs']; [by apply Hfe|].
    rewrite Hvs', values_Return. split; [by intros [= ->]|].
    intros Heq. f_equal. by apply Return_fmap_inj.
Qed.

End Gather.

(** Two resolutions of one name that start before a reply has arrived both
    miss the cache, and each sends its request. *)
Example same_name_in_flight_twice :
  requests (gather pokeapi [JStr "ivysaur"; JStr "Ivysaur"] [] start).2
  = [DetailRequest "ivysaur"; DetailRequest "ivysaur"].
Proof. by vm_compute. Qed.

(** ** The page aggregator *)

Section Pages.

Context `{PyStr} `{Pydantic}.
Variable upstream : nat → request → reply.

(** The branch without search succeeds exactly when the list call is
    answered with a page, every resolution of the page returns, the count
    compares with an int and validates; the schedule plays no part. *)
Lemma plain_branch_Return (page limit : Z) (sched : list nat) (st : state)
    (resp : PokemonResponse) :
  let offset := (page - 1) * limit in
  (plain_branch upstream page limit sched st).1 = Return resp ↔
  ∃ count names vs has_more total,
    plain_page (upstream (length (requests st)) (ListRequest offset limit))
    = Return (count, names) ∧
    resolutions upstream names (POKEMON_CACHE st) (S (length (requests st)))
    = Return <$> vs ∧
    py_lt_int (offset + limit) count = Return has_more ∧
    validate_int count = Some total ∧
    resp = PokemonResponse.mk (not_None vs) page total has_more.
Proof.
  intros offset. unfold plain_branch, client_get. fold offset.
  destruct (plain_page _) as [[count names]|e]; cbn [fst].
  2:{ split; [done|]. by intros (?&?&?&?&?&?&_). }
  pose proof (gather_spec upstream names sched
                (sent (ListRequest offset limit) st)) as (Hg & _ & _).
  rewrite sent_length in Hg. cbn [POKEMON_CACHE sent] in Hg.
  destruct (gather _ _ _ _) as [[vs|e] st2]; cbn [fst snd bind] in *.
  - pose proof (proj1 (Hg vs) eq_refl) as Hvs. split.
    + intros Hresp. exists count, names, vs.
      destruct (py_lt_int _ count) as [b|]; [|done]. cbn [bind] in Hresp.
      destruct (validate_int count) as [n|]; [|done]. simpl in Hresp.
      exists b, n. by injection Hresp as <-.
    + intros (? & ? & vs' & b & n & [= <- <-] & Hvs' & -> & -> & ->).
      rewrite Hvs in Hvs'. apply Return_fmap_inj in Hvs' as <-. done.
  - split; [done|].
    intros (? & ? & vs' & b & n & [= <- <-] & Hvs' & _).
    by apply Hg in Hvs'.
Qed.

(** The same for the search branch, where the total is the number of
    entries the filter kept. *)
Lemma search_branch_Return (page limit : Z) (search : string)
    (sched : list nat) (st : state) (resp : PokemonResponse) :
  let offset := (page - 1) * limit in
  (search_branch upstream page limit search sched st).1 = Return resp ↔
  ∃ total names vs,
    search_page page limit search
      (upstream (length (requests st)) (ListRequest 0 1000))
    = Return (total, names) ∧
    resolutions upstream names (POKEMON_CACHE st) (S (length (requests st)))
    = Return <$> vs ∧
    resp = PokemonResponse.mk (not_None vs) page total (offset + limit <? total).
Proof.
  intros offset. unfold search_branch, client_get. fold offset.
  destruct (search_page _ _ _ _) as [[total names]|e]; cbn [fst].
  2:{ split; [done|]. by intros (?&?&?&?&_). }
  pose proof (gather_spec upstream names sched
                (sent (ListRequest 0 1000) st)) as (Hg & _ & _).
  rewrite sent_length in Hg. cbn [POKEMON_CACHE sent] in Hg.
  destruct (gather _ _ _ _) as [[vs|e] st2]; cbn [fst snd bind] in *.
  - pose proof (proj1 (Hg vs) eq_refl) as Hvs. split.
    + intros [= <-]. by exists total, names, vs.
    + intros (? & ? & vs' & [= <- <-] & Hvs' & ->).
      rewrite Hvs in Hvs'. by apply Return_fmap_inj in Hvs' as <-.
  - split; [done|].
    intros (? & ? & vs' & [= <- <-] & Hvs' & _). by apply Hg in Hvs'.
Qed.

(** The handler returns what its body returns. *)
Lemma get_pokemon_data_Return (page limit : Z) (search : option string)
    (sched : list nat) (st : state) (resp : PokemonResponse) :
  (get_pokemon_data upstream page limit search sched st).1 = Return resp ↔
  (get_pokemon_data_body upstream page limit search sched st).1 = Return resp.
Proof.
  unfold get_pokemon_data.
  by destruct (get_pokemon_data_body _ _ _ _ _ _) as [[r|e] st'].
Qed.

Lemma get_pokemon_data_state (page limit : Z) (search : option string)
    (sched : list nat) (st : state) :
  (get_pokemon_data upstream page limit search sched st).2
  = (get_pokemon_data_body upstream page limit search sched st).2.
Proof.
  unfold get_pokemon_data.
  by destruct (get_pokemon_data_body _ _ _ _ _ _) as [[r|e] st'].
Qed.

(** The requests of a page: the list call, then the detail calls of the
    entries that are not cached, if the list call gave a page. *)
Lemma plain_branch_requests (page limit : Z) (sched : list nat) (st : state) :
  let offset := (page - 1) * limit in
  requests (plain_branch upstream page limit sched st).2 =
  requests st ++ ListRequest offset limit ::
    match plain_page (upstream (length (requests st)) (ListRequest offset limit)) with
    | Return (_, names) => detail_requests names (POKEMON_CACHE st)
    | Raise _ => []
    end.
Proof.
  intros offset. unfold plain_branch, client_get. fold offset.
  destruct (plain_page _) as [[count names]|e]; cbn [snd]; [|done].
  pose proof (gather_spec upstream names sched
                (sent (ListRequest offset limit) st)) as (_ & Hr & _).
  destruct (gather _ _ _ _) as [r st2]. cbn [snd] in *.
  rewrite Hr. simpl. by rewrite <- app_assoc.
Qed.

Lemma search_branch_requests (page limit : Z) (search : string)
    (sched : list nat) (st : state) :
  requests (search_branch upstream page limit search sched st).2 =
  requests st ++ ListRequest 0 1000 ::
    match search_page page limit search
            (upstream (length (requests st)) (ListRequest 0 1000)) with
    | Return (_, names) => detail_requests names (POKEMON_CACHE st)
    | Raise _ => []
    end.
Proof.
  unfold search_branch, client_get.
  destruct (search_page _ _ _ _) as [[count names]|e]; cbn [snd]; [|done].
  pose proof (gather_spec upstream names sched
                (sent (ListRequest 0 1000) st)) as (_ & Hr & _).
  destruct (gather _ _ _ _) as [r st2]. cbn [snd] in *.
  rewrite Hr. simpl. by rewrite <- app_assoc.
Qed.

(** A page request keeps the entries the cache holds. *)
Lemma get_pokemon_data_keeps (page limit : Z) (search : option string)
    (sched : list nat) (st : state) (key : string) (p : Pokemon) :
  POKEMON_CACHE st !! key = Some p →
  POKEMON_CACHE (get_pokemon_data upstream page limit search sched st).2 !! key
  = Some p.
Proof.
  intros Hkey. rewrite get_pokemon_data_state. unfold get_pokemon_data_body.
  destruct (truthy search) as [s|].
  - unfold search_branch, client_get.
    destruct (search_page _ _ _ _) as [[count names]|e]; cbn [snd]; [|done].
    pose proof (gather_spec upstream names sched
                  (sent (ListRequest 0 1000) st)) as (_ & _ & Hc).
    destruct (gather _ _ _ _) as [r st2]. cbn [snd] in *. by apply Hc.
  - unfold plain_branch, client_get.
    destruct (plain_page _) as [[count names]|e]; cbn [snd]; [|done].
    pose proof (gather_spec upstream names sched
                  (sent (ListRequest ((page - 1) * limit) limit) st)) as (_ & _ & Hc).
    destruct (gather _ _ _ _) as [r st2]. cbn [snd] in *. by apply Hc.
Qed.

End Pages.

(** ** The list call fails *)

Section ListFailure.

Context `{PyStr} `{Pydantic}.
Variable upstream : nat → request → reply.

(** The exception raised for a status that is not 200 is raised inside the
    try, and [except Exception] turns it into a 500. *)
Lemma list_failure_is_500 (page limit : Z) (search : option string)
    (sched : list nat) (st : state) (code : Z) (body : option json) :
  upstream (length (requests st)) (list_request page limit search)
  = Response code body →
  code ≠ 200 →
  (get_pokemon_data upstream page limit search sched st).1 =
  Raise (HTTPException 500
           (InternalServerError
              (HTTPException code
                 (Text "Failed to fetch data from external API")))).
Proof.
  intros Hreply Hcode. apply Z.eqb_neq in Hcode.
  unfold get_pokemon_data, get_pokemon_data_body, list_request in *.
  destruct (truthy search) as [s|].
  - unfold search_branch, client_get, search_page.
    rewrite Hreply. simpl. by rewrite Hcode.
  - unfold plain_branch, client_get, plain_page.
    rewrite Hreply. simpl. by rewrite Hcode.
Qed.

End ListFailure.

(** C1: when the list call answers 404, the page aggregator does not fail
    with status 404: with or without a search term it fails with status
    500, the 404 being quoted in the detail of the failure. *)
Theorem C1_list_failure_not_propagated :
  (get_pokemon_data (pokeapi_down 404) 1 10 None [] start).1 =
  Raise (HTTPException 500
           (InternalServerError
              (HTTPException 404
                 (Text "Failed to fetch data from external API")))) ∧
  (get_pokemon_data (pokeapi_down 404) 1 10 (Some "char") [] start).1 =
  Raise (HTTPException 500
           (InternalServerError
              (HTTPException 404
                 (Text "Failed to fetch data from external API")))).
Proof. split; by vm_compute. Qed.

(** ** The cache *)

(** C3, amended: once the cache holds a record under the lowercased name,
    a resolution of the name that starts then returns that record and
    leaves the state as it is, so that no request is sent and nothing is
    written; and no other resolution and no page request that starts then
    changes the entry. *)
Theorem C3_cached_name_is_not_fetched_again `{PyStr} `{Pydantic}
    (upstream : nat → request → reply) (name : string) (p : Pokemon)
    (st : state) :
  POKEMON_CACHE st !! lower name = Some p →
  fetch_pokemon_details upstream name st = (Return (Some p), st) ∧
  (∀ other,
     POKEMON_CACHE (fetch_pokemon_details upstream other st).2 !! lower name
     = Some p) ∧
  (∀ page limit search sched,
     POKEMON_CACHE (get_pokemon_data upstream page limit search sched st).2
       !! lower name = Some p).
Proof.
  intros Hp. split; [by apply fetch_hit|]. split.
  - intros other.
    destruct (fetch_pokemon_details upstream other st) as [o st'] eqn:Hrun.
    by eapply fetch_keeps.
  - intros. by apply get_pokemon_data_keeps.
Qed.

Lemma C3_cached_name_is_not_fetched_again_witness :
  let st := (fetch_pokemon_details pokeapi "Ivysaur" start).2 in
  fetch_pokemon_details pokeapi "IVYSAUR" st
  = ((fetch_pokemon_details pokeapi "Ivysaur" start).1, st).
Proof.
  intros st.
  refine (proj1 (C3_cached_name_is_not_fetched_again pokeapi "IVYSAUR"
                   (Pokemon.mk 2 "ivysaur" 7 69 ["grass"] (Some "art/ivysaur"))
                   st _)).
  by vm_compute.
Defined.

(** C3, as stated, fails: an entry is written more than once when two
    resolutions of one name are under way together. The page lists one
    name twice and nothing is cached: both resolutions miss, both send the
    request for "ivysaur", and the reply that arrives second overwrites the
    entry that the first one wrote. *)
Lemma C3_counterexample :
  let st1 := sent (ListRequest 0 2) start in
  let ts := (spawn [JStr "ivysaur"; JStr "ivysaur"] st1).1 in
  let st2 := (spawn [JStr "ivysaur"; JStr "ivysaur"] st1).2 in
  let first := complete pokeapi_twins (ts, None, st2) 0 in
  let second := complete pokeapi_twins first 1 in
  requests (get_pokemon_data pokeapi_twins 1 2 None [0; 1]%nat start).2
  = [ListRequest 0 2; DetailRequest "ivysaur"; DetailRequest "ivysaur"] ∧
  Pokemon.id <$> POKEMON_CACHE first.2 !! "ivysaur" = Some 1 ∧
  Pokemon.id <$> POKEMON_CACHE second.2 !! "ivysaur" = Some 2 ∧
  Pokemon.id
    <$> POKEMON_CACHE
          (get_pokemon_data pokeapi_twins 1 2 None [0; 1]%nat start).2
        !! "ivysaur" = Some 2 ∧
  Pokemon.id
    <$> POKEMON_CACHE
          (get_pokemon_data pokeapi_twins 1 2 None [1; 0]%nat start).2
        !! "ivysaur" = Some 1.
Proof. repeat split; by vm_compute. Qed.

(** Resolving a name twice in a row: the second resolution returns the
    record of the first and changes nothing. *)
Lemma resolve_twice `{PyStr} `{Pydantic} (upstream : nat → request → reply)
    (name : string) (p : Pokemon) (st st' : state) :
  fetch_pokemon_details upstream name st = (Return (Some p), st') →
  fetch_pokemon_details upstream name st' = (Return (Some p), st').
Proof. intros Hrun. by eapply fetch_hit, fetch_caches. Qed.

(** ** Absence and the single-item lookup *)

(** C7: when the name is not cached and the detail call answers with a
    status that is not 200, raises TimeoutException or raises RequestError,
    the resolver returns None, raises nothing and caches nothing. The
    lookup endpoint answers None with the 404 failure and a record with
    the record itself; it raises the 404 only for None, any other
    exception it raises is one the resolver raised. *)
Theorem C7_absence_becomes_not_found `{PyStr} `{Pydantic}
    (upstream : nat → request → reply) (name : string) (st : state) :
  let reply := upstream (length (requests st)) (DetailRequest (lower name)) in
  (POKEMON_CACHE st !! lower name = None →
   (∃ status_code body, reply = Response status_code body ∧ status_code ≠ 200)
   ∨ reply = Failure TimeoutException
   ∨ reply = Failure RequestError →
   fetch_pokemon_details upstream name st
   = (Return None, sent (DetailRequest (lower name)) st)) ∧
  ((fetch_pokemon_details upstream name st).1 = Return None →
   (get_pokemon_by_name upstream name st).1
   = Raise (HTTPException 404 (Text "Pokemon not found"))) ∧
  (∀ p, (fetch_pokemon_details upstream name st).1 = Return (Some p) →
        (get_pokemon_by_name upstream name st).1 = Return p) ∧
  (∀ e, (get_pokemon_by_name upstream name st).1 = Raise e →
        (fetch_pokemon_details upstream name st).1 = Raise e ∨
        (fetch_pokemon_details upstream name st).1 = Return None ∧
        e = HTTPException 404 (Text "Pokemon not found")) ∧
  (get_pokemon_by_name upstream name st).2
  = (fetch_pokemon_details upstream name st).2.
Proof.
  intros reply. split.
  { intros Hmiss Habs. rewrite (fetch_miss _ _ _ Hmiss), fetch_finish_eq.
    fold reply.
    destruct Habs as [(code & body & -> & Hcode)|[-> | ->]]; simpl; [|done..].
    apply Z.eqb_neq in Hcode. by rewrite Hcode. }
  unfold get_pokemon_by_name.
  destruct (fetch_pokemon_details upstream name st) as [[[p|]|e] st'];
    cbn [fst snd]; repeat split; try done.
  - by intros p' [= ->].
  - intros e [= <-]. by right.
  - intros e' [= <-]. by left.
Qed.

Lemma C7_absence_becomes_not_found_witness :
  get_pokemon_by_name pokeapi "Pikachu" start
  = (Raise (HTTPException 404 (Text "Pokemon not found")),
     sent (DetailRequest "pikachu") start) ∧
  get_pokemon_by_name (pokeapi_timeout "ivysaur") "Ivysaur" start
  = (Raise (HTTPException 404 (Text "Pokemon not found")),
     sent (DetailRequest "ivysaur") start) ∧
  get_pokemon_by_name (pokeapi_refused "ivysaur") "Ivysaur" start
  = (Raise (HTTPException 404 (Text "Pokemon not found")),
     sent (DetailRequest "ivysaur") start) ∧
  (get_pokemon_by_name pokeapi "Ivysaur" start).1
  = Return (Pokemon.mk 2 "ivysaur" 7 69 ["grass"] (Some "art/ivysaur")).
Proof.
  assert (∀ up name,
            POKEMON_CACHE start !! lower name = None →
            (∃ status_code body,
               up (length (requests start)) (DetailRequest (lower name))
               = Response status_code body ∧ status_code ≠ 200)
            ∨ up (length (requests start)) (DetailRequest (lower name))
              = Failure TimeoutException
            ∨ up (length (requests start)) (DetailRequest (lower name))
              = Failure RequestError →
            get_pokemon_by_name up name start
            = (Raise (HTTPException 404 (Text "Pokemon not found")),
               sent (DetailRequest (lower name)) start)) as Habsent.
  { intros up name Hmiss Habs.
    pose proof (C7_absence_becomes_not_found up name start)
      as (Hnone & H404 & _ & _ & Hstate).
    specialize (Hnone Hmiss Habs). rewrite Hnone in H404, Hstate.
    specialize (H404 eq_refl).
    destruct (get_pokemon_by_name up name start) as [r st'].
    simpl in H404, Hstate. by subst. }
  split; [|split; [|split]].
  - apply (Habsent pokeapi "Pikachu"); [reflexivity|].
    left. exists 404, None. split; [reflexivity|lia].
  - apply (Habsent (pokeapi_timeout "ivysaur") "Ivysaur"); [reflexivity|].
    right. left. reflexivity.
  - apply (Habsent (pokeapi_refused "ivysaur") "Ivysaur"); [reflexivity|].
    right. right. reflexivity.
  - pose proof (C7_absence_becomes_not_found pokeapi "Ivysaur" start)
      as (_ & _ & Hsome & _).
    apply Hsome. by vm_compute.
Defined.

(** ** Letter case *)




(** ** The list call and the filter *)

Lemma hit_matches `{PyStr} (term : string) (item : json) :
  match name_of item with
  | Some n => py_in (lower term) (lower n)
  | None => false
  end = true ↔ matches term item.
Proof.
  unfold matches. destruct (name_of item) as [n|].
  - rewrite py_in_lower. split; [by exists n|]. by intros (? & [= <-] & ?).
  - split; [done|]. by intros (? & ? & _).
Qed.

#[export] Instance matches_dec `{PyStr} (term : string) (item : json) :
  Decision (matches term item).
Proof.
  refine (cast_if (decide (match name_of item with
                           | Some n => py_in (lower term) (lower n)
                           | None => false
                           end = true)));
    by rewrite <- hit_matches.
Defined.

(** The filter of the search branch keeps the entries that match. *)
Lemma search_filter_spec `{PyStr} (search : string) (items kept : list json) :
  search_filter search items = Return kept → kept = filter (matches search) items.
Proof.
  revert kept. induction items as [|item items IH]; intros kept.
  { by intros [= <-]. }
  cbn [search_filter]. unfold name_lower.
  destruct (py_getitem item "name") as [name|e] eqn:Hname; [|done].
  destruct name as [| | |n| |]; try done. cbn [bind].
  destruct (search_filter search items) as [rest|e]; [|done]. cbn [bind].
  intros [= <-]. rewrite (IH rest eq_refl), filter_cons.
  pose proof (hit_matches search item) as Hhit.
  unfold name_of in Hhit. rewrite Hname in Hhit.
  destruct (py_in (lower search) (lower n)).
  - rewrite decide_True; [done|]. by apply Hhit.
  - rewrite decide_False; [done|]. intros Hm. by apply Hhit in Hm.
Qed.

Lemma list_data_Return (r : reply) (data : json) :
  list_data r = Return data → r = Response 200 (Some data).
Proof.
  destruct r as [code body|e]; [|done]. unfold list_data.
  destruct (Z.eqb_spec code 200) as [->|]; simpl; [|done].
  destruct body; simpl; [|done]. by intros [= <-].
Qed.

Lemma plain_page_Return (r : reply) (count : json) (names : list json) :
  plain_page r = Return (count, names) →
  ∃ data results items,
    r = Response 200 (Some data) ∧
    py_getitem data "results" = Return results ∧
    py_getitem data "count" = Return count ∧
    py_iter results = Return items ∧
    task_names items = Return names.
Proof.
  unfold plain_page.
  destruct (list_data r) as [data|] eqn:Hdata; [|done]. cbn [bind].
  destruct (py_getitem data "results") as [results|] eqn:Hres; [|done].
  cbn [bind].
  destruct (py_getitem data "count") as [count'|] eqn:Hcount; [|done].
  cbn [bind].
  destruct (py_iter results) as [items|] eqn:Hitems; [|done]. cbn [bind].
  destruct (task_names items) as [names'|] eqn:Hnames; [|done]. cbn [bind].
  intros [= <- <-]. exists data, results, items.
  by rewrite (list_data_Return _ _ Hdata).
Qed.

Lemma search_page_Return `{PyStr} (page limit : Z) (search : string) (r : reply)
    (total : Z) (names : list json) :
  search_page page limit search r = Return (total, names) →
  ∃ data results items,
    r = Response 200 (Some data) ∧
    py_getitem data "results" = Return results ∧
    py_iter results = Return items ∧
    total = Z.of_nat (length (filter (matches search) items)) ∧
    task_names (py_slice (filter (matches search) items)
                  ((page - 1) * limit) ((page - 1) * limit + limit))
    = Return names.
Proof.
  unfold search_page.
  destruct (list_data r) as [data|] eqn:Hdata; [|done]. cbn [bind].
  destruct (py_getitem data "results") as [results|] eqn:Hres; [|done].
  cbn [bind].
  destruct (py_iter results) as [items|] eqn:Hitems; [|done]. cbn [bind].
  destruct (search_filter search items) as [kept|] eqn:Hkept; [|done].
  cbn [bind]. apply search_filter_spec in Hkept as ->.
  destruct (task_names _) as [names'|] eqn:Hnames; [|done]. cbn [bind].
  intros [= <- <-]. exists data, results, items.
  by rewrite (list_data_Return _ _ Hdata).
Qed.

Lemma detail_requests_details `{PyStr} (names : list json) (cache : gmap string Pokemon) :
  Forall (λ r, ∃ name, r = DetailRequest name) (detail_requests names cache).
Proof.
  induction names as [|name names IH]; [by constructor|].
  destruct name as [| | |s| |]; simpl; try done.
  destruct (cache !! lower s); [done|]. constructor; [by eexists|done].
Qed.

Lemma py_lt_int_validate `{Pydantic} (n : Z) (count : json) (b : bool) (t : Z) :
  py_lt_int n count = Return b → validate_int count = Some t → b = (n <? t).
Proof. destruct count; simpl; try done; by intros [= <-] [= <-]. Qed.

(** ** Pagination *)

(** The total and the has_more of a response, on both branches. *)
Lemma response_total `{PyStr} `{Pydantic} (upstream : nat → request → reply)
    (page limit : Z) (search : option string) (sched : list nat) (st : state)
    (resp : PokemonResponse) :
  (get_pokemon_data upstream page limit search sched st).1 = Return resp →
  PokemonResponse.has_more resp
  = ((page - 1) * limit + limit <? PokemonResponse.total resp) ∧
  match truthy search with
  | None =>
      ∃ data count,
        upstream (length (requests st)) (ListRequest ((page - 1) * limit) limit)
        = Response 200 (Some data) ∧
        py_getitem data "count" = Return count ∧
        validate_int count = Some (PokemonResponse.total resp) ∧
        ∀ n, count = JInt n → PokemonResponse.total resp = n
  | Some s =>
      ∃ data results items,
        upstream (length (requests st)) (ListRequest 0 1000)
        = Response 200 (Some data) ∧
        py_getitem data "results" = Return results ∧
        py_iter results = Return items ∧
        PokemonResponse.total resp
        = Z.of_nat (length (filter (matches s) items))
  end.
Proof.
  rewrite get_pokemon_data_Return. unfold get_pokemon_data_body.
  destruct (truthy search) as [s|].
  - rewrite search_branch_Return.
    intros (total & names & vs & Hpage & _ & ->). split; [done|].
    apply search_page_Return in Hpage
      as (data & results & items & Hr & Hres & Hitems & -> & _).
    by exists data, results, items.
  - rewrite plain_branch_Return.
    intros (count & names & vs & b & total & Hpage & _ & Hlt & Hval & ->).
    split; [by eapply py_lt_int_validate|].
    apply plain_page_Return in Hpage
      as (data & results & items & Hr & _ & Hcount & _).
    exists data, count. repeat split; try done.
    intros n ->. simpl in Hval. by injection Hval.
Qed.

(** C2: in every response of the page aggregator, has_more is the truth of
    (page - 1) * limit + limit < total; without search, total is the count
    of the upstream list response, validated as an int; with search, total
    is the number of entries of the upstream list that match the term. *)
Theorem C2_has_more `{PyStr} `{Pydantic} (upstream : nat → request → reply)
    (page limit : Z) (search : option string) (sched : list nat) (st : state)
    (resp : PokemonResponse) :
  (get_pokemon_data upstream page limit search sched st).1 = Return resp →
  PokemonResponse.has_more resp
  = ((page - 1) * limit + limit <? PokemonResponse.total resp) ∧
  match truthy search with
  | None =>
      ∃ data count,
        upstream (length (requests st)) (ListRequest ((page - 1) * limit) limit)
        = Response 200 (Some data) ∧
        py_getitem data "count" = Return count ∧
        validate_int count = Some (PokemonResponse.total resp) ∧
        ∀ n, count = JInt n → PokemonResponse.total resp = n
  | Some s =>
      ∃ data results items,
        upstream (length (requests st)) (ListRequest 0 1000)
        = Response 200 (Some data) ∧
        py_getitem data "results" = Return results ∧
        py_iter results = Return items ∧
        PokemonResponse.total resp
        = Z.of_nat (length (filter (matches s) items))
  end.
Proof. apply response_total. Qed.

Lemma C2_has_more_witness :
  ∃ resp,
    (get_pokemon_data pokeapi 1 10 None [] start).1 = Return resp ∧
    PokemonResponse.total resp = 1302 ∧
    PokemonResponse.has_more resp = true ∧
    length (PokemonResponse.pokemon resp) = 10%nat.
Proof.
  eexists. split; [by vm_compute|].
  split; [done|]. split; [|done].
  refine (proj1 (C2_has_more pokeapi 1 10 None [] start _ _)).
  by vm_compute.
Defined.

(** C10: a search parameter that is the empty string is no search: the
    handler does what it does without the parameter. It sends the list call
    for [limit] entries from offset (page - 1) * limit, then detail calls
    only, and the total of a response is the count of the upstream list
    response. *)
Theorem C10_empty_search_is_no_search `{PyStr} `{Pydantic}
    (upstream : nat → request → reply) (page limit : Z) (sched : list nat)
    (st : state) :
  get_pokemon_data upstream page limit (Some "") sched st
  = get_pokemon_data upstream page limit None sched st ∧
  (∃ details,
     requests (get_pokemon_data upstream page limit (Some "") sched st).2
     = requests st ++ ListRequest ((page - 1) * limit) limit :: details ∧
     Forall (λ r, ∃ name, r = DetailRequest name) details) ∧
  (∀ resp,
     (get_pokemon_data upstream page limit (Some "") sched st).1 = Return resp →
     ∃ data count,
       upstream (length (requests st)) (ListRequest ((page - 1) * limit) limit)
       = Response 200 (Some data) ∧
       py_getitem data "count" = Return count ∧
       validate_int count = Some (PokemonResponse.total resp)).
Proof.
  split; [done|]. split.
  - rewrite get_pokemon_data_state. unfold get_pokemon_data_body.
    cbn [truthy String.eqb].
    rewrite plain_branch_requests. eexists. split; [done|].
    destruct (plain_page _) as [[count names]|e]; [|by constructor].
    apply detail_requests_details.
  - intros resp Hresp.
    destruct (response_total upstream page limit (Some "") sched st resp Hresp)
      as [_ (data & count & ? & ? & ? & _)].
    by exists data, count.
Qed.

Lemma C10_empty_search_is_no_search_witness :
  (get_pokemon_data pokeapi 2 3 (Some "") [] start).1
  = (get_pokemon_data pokeapi 2 3 None [] start).1 ∧
  requests (get_pokemon_data pokeapi 2 3 (Some "") [] start).2
  = [ListRequest 3 3; DetailRequest "charmander";
     DetailRequest "charmeleon"; DetailRequest "charizard"].
Proof.
  split; [|by vm_compute].
  exact (f_equal fst (proj1 (C10_empty_search_is_no_search pokeapi 2 3 [] start))).
Defined.

(** ** Search *)



(** ** Order *)

Lemma traverse_Forall2 {A B} (f : A → result B) (xs : list A) (ys : list B) :
  traverse f xs = Return ys → Forall2 (λ x y, f x = Return y) xs ys.
Proof.
  revert ys. induction xs as [|x xs IH]; intros ys; simpl.
  { intros [= <-]. constructor. }
  destruct (f x) as [y|] eqn:Hy; [|done]. cbn [bind].
  destruct (traverse f xs) as [ys'|]; [|done]. cbn [bind].
  intros [= <-]. constructor; [done|]. by apply IH.
Qed.

(** The comprehension of lines 106 and 133 keeps the outcomes that are
    records, in their order. *)
Lemma not_None_filter (vs : list (option Pokemon)) :
  Some <$> not_None vs = filter is_Some vs.
Proof.
  unfold not_None. induction vs as [|[p|] vs IH]; [done| |].
  - rewrite filter_cons_True by by eexists. cbn [omap list_omap].
    by rewrite fmap_cons, IH.
  - rewrite filter_cons_False by by intros []. done.
Qed.

(** C5: a page request that returns a response had its list call answered
    with a list of entries. The entries of the page are those of that list
    (without search) or the slice of the page of those that match (with
    search), in the order of the list; [names] are their names and [vs]
    the outcomes of the resolutions of the names, entry by entry; the
    records of the response are the outcomes that are records, in that
    order. With any other order of arrival of the replies the handler
    returns the same response. *)
Theorem C5_order `{PyStr} `{Pydantic} (upstream : nat → request → reply)
    (page limit : Z) (search : option string) (sched : list nat) (st : state)
    (resp : PokemonResponse) :
  (get_pokemon_data upstream page limit search sched st).1 = Return resp →
  (∃ data results items names vs,
     upstream (length (requests st))
       (match truthy search with
        | Some _ => ListRequest 0 1000
        | None => ListRequest ((page - 1) * limit) limit
        end)
     = Response 200 (Some data) ∧
     py_getitem data "results" = Return results ∧
     py_iter results = Return items ∧
     let entries :=
       match truthy search with
       | Some s =>
           py_slice (filter (matches s) items)
             ((page - 1) * limit) ((page - 1) * limit + limit)
       | None => items
       end in
     (valid_query page limit →
      ∀ s, truthy search = Some s →
           entries
           = take (Z.to_nat limit)
               (drop (Z.to_nat ((page - 1) * limit))
                  (filter (matches s) items))) ∧
     Forall2 (λ entry name, py_getitem entry "name" = Return name)
       entries names ∧
     resolutions upstream names (POKEMON_CACHE st) (S (length (requests st)))
     = Return <$> vs ∧
     Some <$> PokemonResponse.pokemon resp = filter is_Some vs) ∧
  (∀ sched',
     (get_pokemon_data upstream page limit search sched' st).1 = Return resp).
Proof.
  intros Hresp. split.
  - revert Hresp. rewrite get_pokemon_data_Return.
    unfold get_pokemon_data_body.
    destruct (truthy search) as [s|].
    + rewrite search_branch_Return.
      intros (total & names & vs & Hpage & Hvs & ->).
      apply search_page_Return in Hpage
        as (data & results & items & Hr & Hres & Hitems & -> & Hnames).
      exists data, results, items, names, vs. cbv zeta.
      repeat split; try done.
      * intros Hquery s' [= <-]. by apply py_slice_page.
      * by apply traverse_Forall2.
      * apply not_None_filter.
    + rewrite plain_branch_Return.
      intros (count & names & vs & b & total & Hpage & Hvs & _ & _ & ->).
      apply plain_page_Return in Hpage
        as (data & results & items & Hr & Hres & _ & Hitems & Hnames).
      exists data, results, items, names, vs. cbv zeta.
      repeat split; try done.
      * by apply traverse_Forall2.
      * apply not_None_filter.
  - intros sched'. revert Hresp. rewrite !get_pokemon_data_Return.
    unfold get_pokemon_data_body. destruct (truthy search) as [s|].
    + by rewrite !search_branch_Return.
    + by rewrite !plain_branch_Return.
Qed.

Lemma C5_order_witness :
  ∃ resp,
    (get_pokemon_data (pokeapi_timeout "charmeleon") 1 3 (Some "CHAR") []
       start).1 = Return resp ∧
    Pokemon.name <$> PokemonResponse.pokemon resp
    = ["charmander"; "charizard"] ∧
    (get_pokemon_data (pokeapi_timeout "charmeleon") 1 3 (Some "CHAR")
       [2; 0; 1]%nat start).1 = Return resp ∧
    ∃ names vs,
      Forall2 (λ entry name, py_getitem entry "name" = Return name)
        (py_slice (filter (matches "CHAR") (entry <$> pokedex)) 0 3) names ∧
      names = [JStr "charmander"; JStr "charmeleon"; JStr "charizard"] ∧
      resolutions (pokeapi_timeout "charmeleon") names ∅ 1 = Return <$> vs ∧
      Some <$> PokemonResponse.pokemon resp = filter is_Some vs.
Proof.
  destruct (get_pokemon_data (pokeapi_timeout "charmeleon") 1 3 (Some "CHAR")
              [] start) as [r st'] eqn:Hrun.
  assert (∃ resp, r = Return resp ∧
            Pokemon.name <$> PokemonResponse.pokemon resp
            = ["charmander"; "charizard"]) as (resp & -> & Hrecs).
  { vm_compute in Hrun. injection Hrun as <- _. by eexists. }
  exists resp. split; [done|]. split; [done|].
  destruct (C5_order (pokeapi_timeout "charmeleon") 1 3 (Some "CHAR") []
              start resp)
    as [(data & results & items & names & vs & Hr & Hres & Hitems & _
         & Hnames & Hvs & Hrecords) Hsched]; [by rewrite Hrun|].
  split; [apply Hsched|].
  cbn [truthy String.eqb pokeapi_timeout pokeapi] in Hr.
  injection Hr as <-.
  simpl in Hres. injection Hres as <-.
  simpl in Hitems. injection Hitems as <-.
  exists names, vs. split; [exact Hnames|]. split; [|by split].
  assert (Hcut : py_slice (filter (matches "CHAR") (entry <$> pokedex)) 0 3
                 = [entry "charmander"; entry "charmeleon"; entry "charizard"])
    by by vm_compute.
  assert (Hnames' : Forall2 (λ entry name, py_getitem entry "name" = Return name)
                      [entry "charmander"; entry "charmeleon"; entry "charizard"]
                      names) by (rewrite <- Hcut; exact Hnames).
  clear Hnames Hcut.
  repeat match goal with
         | Hn : Forall2 _ _ _ |- _ => inversion Hn; clear Hn; subst
         end.
  repeat match goal with
         | Hn : py_getitem _ _ = Return _ |- _ =>
             vm_compute in Hn; injection Hn as <-
         end.
  done.
Defined.

(** ** Absences *)

Section Absences.

Context `{PyStr} `{Pydantic}.

Lemma reply_outcome_absence (r : reply) :
  absence_reply r → reply_outcome r = Return None.
Proof.
  destruct r as [code body|e]; simpl.
  - intros Hcode. apply Z.eqb_neq in Hcode. by rewrite Hcode.
  - by destruct e.
Qed.

(** Replies turned into absences turn records into None, and nothing
    else. *)
Lemma resolutions_absences (upstream upstream' : nat → request → reply)
    (names : list json) (cache : gmap string Pokemon) (i : nat)
    (vs' : list (option Pokemon)) :
  (∀ i name, upstream i (DetailRequest name) = upstream' i (DetailRequest name)
             ∨ absence_reply (upstream i (DetailRequest name))) →
  resolutions upstream' names cache i = Return <$> vs' →
  ∃ vs, resolutions upstream names cache i = Return <$> vs ∧
        Forall2 (λ v v', v = v' ∨ v = None) vs vs' ∧
        not_None vs `sublist_of` not_None vs'.
Proof.
  intros Hup. revert i vs'.
  induction names as [|name names IH]; intros i vs' Hvs'.
  { exists []. destruct vs'; [|done]. split; [done|]. split; [constructor|].
    apply sublist_nil_l. }
  assert (∀ j v, (∀ u, resolutions u (name :: names) cache i
                       = Return v :: resolutions u names cache j) →
    ∃ vs, resolutions upstream (name :: names) cache i = Return <$> vs ∧
          Forall2 (λ v v', v = v' ∨ v = None) vs vs' ∧
          not_None vs `sublist_of` not_None vs') as Hsame.
  { intros j v Hcons. rewrite Hcons in Hvs'.
    destruct vs' as [|v' vs']; [done|]. rewrite fmap_cons in Hvs'.
    injection Hvs' as <- Hvs'.
    destruct (IH _ _ Hvs') as (vs & Hvs & Hall & Hsub).
    exists (v :: vs). rewrite Hcons, Hvs. split; [done|].
    split; [constructor; [by left|done]|].
    unfold not_None in *. destruct v as [p|]; simpl; [|done].
    by apply sublist_skip. }
  destruct name as [| | |s| |];
    try (by destruct vs'; simpl in Hvs'; inversion Hvs').
  destruct (cache !! lower s) as [p|] eqn:Hcache.
  { apply (Hsame i (Some p)). intros u. simpl. by rewrite Hcache. }
  clear Hsame. simpl in Hvs' |- *. rewrite Hcache in Hvs' |- *.
  destruct vs' as [|v' vs']; [done|]. rewrite fmap_cons in Hvs'.
  injection Hvs' as Hv' Hvs'.
  destruct (IH _ _ Hvs') as (vs & Hvs & Hall & Hsub).
  destruct (Hup i (lower s)) as [Heq|Habs].
  - exists (v' :: vs). rewrite Heq, Hv', Hvs. split; [done|].
    split; [constructor; [by left|done]|].
    unfold not_None in *. destruct v' as [p|]; simpl; [|done].
    by apply sublist_skip.
  - exists (None :: vs). rewrite (reply_outcome_absence _ Habs), Hvs.
    split; [done|]. split; [constructor; [by right|done]|].
    unfold not_None in *. simpl.
    destruct v' as [p|]; simpl; [|done]. by apply sublist_cons.
Qed.

End Absences.

(** C6: take a page request that returns a response, and turn any of the
    replies to its detail calls into a status that is not 200, a timeout or
    a transport failure. The request still returns a response, with the
    same page, total and has_more. The names of the page resolve as
    before, entry by entry, or to None; the records of each response are
    the outcomes of its resolutions that are records, in their order: so
    the records are the former records with those of the entries that now
    resolve to None left out. *)
Theorem C6_absences_only_shrink_the_records `{PyStr} `{Pydantic}
    (upstream upstream' : nat → request → reply)
    (page limit : Z) (search : option string) (sched sched' : list nat)
    (st : state) (resp' : PokemonResponse) :
  (∀ i offset limit,
     upstream i (ListRequest offset limit) = upstream' i (ListRequest offset limit)) →
  (∀ i name,
     upstream i (DetailRequest name) = upstream' i (DetailRequest name)
     ∨ absence_reply (upstream i (DetailRequest name))) →
  (get_pokemon_data upstream' page limit search sched' st).1 = Return resp' →
  ∃ resp names vs vs',
    (get_pokemon_data upstream page limit search sched st).1 = Return resp ∧
    PokemonResponse.page resp = PokemonResponse.page resp' ∧
    PokemonResponse.total resp = PokemonResponse.total resp' ∧
    PokemonResponse.has_more resp = PokemonResponse.has_more resp' ∧
    resolutions upstream names (POKEMON_CACHE st) (S (length (requests st)))
    = Return <$> vs ∧
    resolutions upstream' names (POKEMON_CACHE st) (S (length (requests st)))
    = Return <$> vs' ∧
    Forall2 (λ v v', v = v' ∨ v = None) vs vs' ∧
    Some <$> PokemonResponse.pokemon resp = filter is_Some vs ∧
    Some <$> PokemonResponse.pokemon resp' = filter is_Some vs' ∧
    PokemonResponse.pokemon resp `sublist_of` PokemonResponse.pokemon resp'.
Proof.
  intros Hlist Hdetail. setoid_rewrite get_pokemon_data_Return.
  unfold get_pokemon_data_body. destruct (truthy search) as [s|].
  - rewrite search_branch_Return.
    intros (total & names & vs' & Hpage & Hvs' & ->).
    destruct (resolutions_absences upstream upstream' _ _ _ _ Hdetail Hvs')
      as (vs & Hvs & Hall & Hsub).
    exists (PokemonResponse.mk (not_None vs) page total
              ((page - 1) * limit + limit <? total)), names, vs, vs'.
    split; [|by repeat split; try apply not_None_filter].
    apply search_branch_Return. exists total, names, vs.
    by rewrite Hlist.
  - rewrite plain_branch_Return.
    intros (count & names & vs' & b & total & Hpage & Hvs' & Hlt & Hval & ->).
    destruct (resolutions_absences upstream upstream' _ _ _ _ Hdetail Hvs')
      as (vs & Hvs & Hall & Hsub).
    exists (PokemonResponse.mk (not_None vs) page total b), names, vs, vs'.
    split; [|by repeat split; try apply not_None_filter].
    apply plain_branch_Return. exists count, names, vs, b, total.
    by rewrite Hlist.
Qed.

Lemma C6_absences_only_shrink_the_records_witness :
  ∃ resp resp',
    (get_pokemon_data pokeapi 1 10 None [] start).1 = Return resp' ∧
    (get_pokemon_data (pokeapi_timeout "ivysaur") 1 10 None [3; 1]%nat start).1
    = Return resp ∧
    Pokemon.name <$> PokemonResponse.pokemon resp'
    = ["bulbasaur"; "ivysaur"; "venusaur"; "charmander"; "charmeleon";
       "charizard"; "squirtle"; "wartortle"; "blastoise"; "caterpie"] ∧
    Pokemon.name <$> PokemonResponse.pokemon resp
    = ["bulbasaur"; "venusaur"; "charmander"; "charmeleon";
       "charizard"; "squirtle"; "wartortle"; "blastoise"; "caterpie"] ∧
    PokemonResponse.page resp = 1 ∧
    PokemonResponse.total resp = 1302 ∧
    PokemonResponse.has_more resp = true ∧
    PokemonResponse.pokemon resp `sublist_of` PokemonResponse.pokemon resp'.
Proof.
  destruct (get_pokemon_data pokeapi 1 10 None [] start) as [r' st'] eqn:Hrun'.
  assert (∃ resp', r' = Return resp' ∧
            Pokemon.name <$> PokemonResponse.pokemon resp'
            = ["bulbasaur"; "ivysaur"; "venusaur"; "charmander"; "charmeleon";
               "charizard"; "squirtle"; "wartortle"; "blastoise"; "caterpie"] ∧
            PokemonResponse.page resp' = 1 ∧
            PokemonResponse.total resp' = 1302 ∧
            PokemonResponse.has_more resp' = true)
    as (resp' & -> & Hnames' & Hpage' & Htotal' & Hmore').
  { vm_compute in Hrun'. injection Hrun' as <- _. by eexists. }
  destruct (C6_absences_only_shrink_the_records
              (pokeapi_timeout "ivysaur") pokeapi 1 10 None [3; 1]%nat []
              start resp')
    as (resp & names & vs & vs' & Hresp & Hpage & Htotal & Hmore & _ & _ & _
        & _ & _ & Hsub).
  - done.
  - intros i name. simpl.
    destruct (String.eqb name "ivysaur"); [by right|by left].
  - by rewrite Hrun'.
  - exists resp, resp'. cbn [fst].
    split; [done|]. split; [done|]. split; [done|].
    split; [|by rewrite Hpage, Htotal, Hmore].
    vm_compute in Hresp. by injection Hresp as <-.
Defined.

(** ** The image of a record *)

Section Image.

Context `{PyStr} `{Pydantic}.

Lemma py_getitem_raises (v : json) (k : string) (e : exn) :
  py_getitem v k = Raise e → key_or_type_error e = true.
Proof.
  destruct v as [| | | | |items]; simpl; try by intros [= <-].
  destruct (assoc k items); simpl; [done|]. by intros [= <-].
Qed.

Lemma lacks_raises (v : json) (k : string) :
  lacks v k → ∃ e, py_getitem v k = Raise e ∧ key_or_type_error e = true.
Proof.
  intros Hlacks. destruct (py_getitem v k) as [x|e] eqn:Hget.
  - by destruct (Hlacks x).
  - exists e. split; [done|]. by eapply py_getitem_raises.
Qed.

(** The inner try never raises: each step of the path raises KeyError or
    TypeError only. *)
Lemma image_url_of_returns (data : json) : ∃ v, image_url_of data = Return v.
Proof.
  unfold image_url_of.
  destruct (py_getitem data "sprites") as [sprites|e] eqn:H1; cbn [bind].
  2:{ rewrite (py_getitem_raises _ _ _ H1). by eexists. }
  destruct (py_getitem sprites "other") as [other|e] eqn:H2; cbn [bind].
  2:{ rewrite (py_getitem_raises _ _ _ H2). by eexists. }
  destruct (py_getitem other "official-artwork") as [artwork|e] eqn:H3;
    cbn [bind].
  2:{ rewrite (py_getitem_raises _ _ _ H3). by eexists. }
  destruct (py_getitem artwork "front_default") as [v|e] eqn:H4.
  - by eexists.
  - rewrite (py_getitem_raises _ _ _ H4). by eexists.
Qed.

Lemma image_absent_None (data : json) :
  image_absent data → image_url_of data = Return JNull.
Proof.
  unfold image_url_of.
  intros [H1|(sprites & -> & Hsprites)]; cbn [bind].
  { apply lacks_raises in H1 as (e & He & Hk). rewrite He. cbn [bind]. by rewrite Hk. }
  destruct Hsprites as [H2|(other & -> & Hother)]; cbn [bind].
  { apply lacks_raises in H2 as (e & He & Hk). rewrite He. cbn [bind]. by rewrite Hk. }
  destruct Hother as [H3|(artwork & -> & Hartwork)]; cbn [bind].
  { apply lacks_raises in H3 as (e & He & Hk). rewrite He. cbn [bind]. by rewrite Hk. }
  destruct Hartwork as [H4| ->]; [|done].
  apply lacks_raises in H4 as (e & He & Hk). rewrite He. cbn [bind]. by rewrite Hk.
Qed.

End Image.

(** C8, amended: when the body of a 200 has the other fields
    and they validate, and its image path ends early, at a field that is
    missing or in a container that is no dict, or ends in null, the body
    parses to the record without image and the resolution returns that
    record. *)
Theorem C8_absent_image_is_tolerated `{Pydantic} (data : json)
    (i : Z) (n : string) (h w : Z) (ts : list string) :
  image_absent data →
  other_fields data i n h w ts →
  parse_pokemon data = Return (Pokemon.mk i n h w ts None) ∧
  reply_outcome (Response 200 (Some data))
  = Return (Some (Pokemon.mk i n h w ts None)).
Proof.
  intros Himage (id & name & height & weight & types &
                 Hid & Hi & Hname & Hn & Hheight & Hh & Hweight & Hw &
                 Htypes & Hts).
  assert (parse_pokemon data = Return (Pokemon.mk i n h w ts None)) as Hparse.
  { unfold parse_pokemon.
    rewrite (image_absent_None _ Himage), Hid, Hname, Hheight, Hweight, Htypes.
    cbn [bind]. unfold new_Pokemon. rewrite Hi, Hn, Hh, Hw, Hts. done. }
  split; [done|]. simpl. by rewrite Hparse.
Qed.

Lemma C8_absent_image_is_tolerated_witness :
  parse_pokemon (detail_json 1 "bulbasaur" (JObj [("other", JArr [])]))
  = Return (Pokemon.mk 1 "bulbasaur" 7 69 ["grass"] None).
Proof.
  refine (proj1 (C8_absent_image_is_tolerated
                   (detail_json 1 "bulbasaur" (JObj [("other", JArr [])]))
                   1 "bulbasaur" 7 69 ["grass"] _ _)).
  - right. exists (JObj [("other", JArr [])]). split; [reflexivity|].
    right. exists (JArr []). split; [reflexivity|].
    left. intros x Hx. discriminate Hx.
  - exists (JInt 1), (JStr "bulbasaur"), (JInt 7), (JInt 69), [JStr "grass"].
    repeat split; reflexivity.
Defined.

(** C8, as stated, fails: in this body of a 200 only
    front_default has the wrong shape, it is a dict; the other fields
    validate, and the same body with a str or with null for front_default
    parses. The constructor of the record refuses the dict, and the
    resolution raises ValidationError. *)
Lemma C8_counterexample :
  let data := detail_json 1 "bulbasaur" (artwork (JObj [])) in
  other_fields data 1 "bulbasaur" 7 69 ["grass"] ∧
  parse_pokemon (detail_json 1 "bulbasaur" (artwork JNull))
  = Return (Pokemon.mk 1 "bulbasaur" 7 69 ["grass"] None) ∧
  parse_pokemon data = Raise ValidationError ∧
  (fetch_pokemon_details (λ _ _, Response 200 (Some data)) "bulbasaur" start).1
  = Raise ValidationError.
Proof.
  intros data. split.
  { exists (JInt 1), (JStr "bulbasaur"), (JInt 7), (JInt 69), [JStr "grass"].
    repeat split; reflexivity. }
  repeat split; by vm_compute.
Qed.

(** The refusal does not depend on the coercions of the validation: a dict
    is no str in any of them. *)
Lemma image_dict_is_refused `{Pydantic} (id : Z) (name : string)
    (items : list (string * json)) :
  parse_pokemon (detail_json id name (artwork (JObj items)))
  = Raise ValidationError.
Proof. reflexivity. Qed.

(** ** More on the detail resolver *)

Section ResolverFailures.

Context `{PyStr} `{Pydantic}.
Variable upstream : nat → request → reply.

Lemma traverse_Raise {A B} (f : A → result B) (xs : list A) (e : exn) :
  traverse f xs = Raise e → ∃ x, x ∈ xs ∧ f x = Raise e.
Proof.
  induction xs as [|x xs IH]; [done|]. cbn [traverse].
  destruct (f x) as [y|e'] eqn:Hx; cbn [bind].
  - destruct (traverse f xs) as [ys|e'']; cbn [bind]; [done|].
    intros [= ->]. destruct (IH eq_refl) as (x' & Hin & Hx').
    exists x'. split; [by apply elem_of_cons; right|done].
  - intros [= ->]. exists x. split; [by apply elem_of_cons; left|done].
Qed.

Lemma traverse_length {A B} (f : A → result B) (xs : list A) (ys : list B) :
  traverse f xs = Return ys → length ys = length xs.
Proof.
  revert ys. induction xs as [|x xs IH]; intros ys; [by intros [= <-]|].
  cbn [traverse]. destruct (f x) as [y|]; cbn [bind]; [|done].
  destruct (traverse f xs) as [ys'|]; cbn [bind]; [|done].
  intros [= <-]. simpl. by rewrite (IH ys').
Qed.

(** Decoding and parsing raise none of the two httpx exceptions that the
    resolver catches. *)
Lemma parse_raises (body : option json) (e : exn) :
  (let* data := of_option body JSONDecodeError in parse_pokemon data) = Raise e →
  request_error e = false.
Proof.
  destruct body as [data|]; cbn [of_option bind]; [|by intros [= <-]].
  unfold parse_pokemon.
  destruct (image_url_of_returns data) as [image ->]. cbn [bind].
  destruct (py_getitem data "id") as [id|e1] eqn:H1; cbn [bind].
  2:{ intros [= <-]. apply py_getitem_raises in H1. by destruct e1. }
  destruct (py_getitem data "name") as [name|e1] eqn:H2; cbn [bind].
  2:{ intros [= <-]. apply py_getitem_raises in H2. by destruct e1. }
  destruct (py_getitem data "height") as [height|e1] eqn:H3; cbn [bind].
  2:{ intros [= <-]. apply py_getitem_raises in H3. by destruct e1. }
  destruct (py_getitem data "weight") as [weight|e1] eqn:H4; cbn [bind].
  2:{ intros [= <-]. apply py_getitem_raises in H4. by destruct e1. }
  destruct (type_names data) as [types|e1] eqn:H5; cbn [bind].
  2:{ intros [= <-]. unfold type_names in H5.
      destruct (py_getitem data "types") as [ts|e2] eqn:H6; cbn [bind] in H5.
      2:{ injection H5 as <-. apply py_getitem_raises in H6. by destruct e2. }
      destruct (py_iter ts) as [xs|e2] eqn:H7; cbn [bind] in H5.
      2:{ injection H5 as <-. destruct ts; simpl in H7; try done; by injection H7 as <-. }
      apply traverse_Raise in H5 as (t & _ & Ht).
      destruct (py_getitem t "type") as [ty|e2] eqn:H8; cbn [bind] in Ht.
      - apply py_getitem_raises in Ht. by destruct e1.
      - injection Ht as <-. apply py_getitem_raises in H8. by destruct e2. }
  unfold new_Pokemon. destruct (_ ≫= _); simpl; [done|]. by intros [= <-].
Qed.

(** A 200 whose body does not decode, or does not parse to a record, makes
    the resolver raise: the exception is not turned into None, nothing is
    cached, and the lookup endpoint passes the exception on instead of a
    404. *)
Theorem broken_detail_body_raises (name : string) (st : state)
    (body : option json) (e : exn) :
  POKEMON_CACHE st !! lower name = None →
  upstream (length (requests st)) (DetailRequest (lower name))
  = Response 200 body →
  (let* data := of_option body JSONDecodeError in parse_pokemon data) = Raise e →
  fetch_pokemon_details upstream name st
  = (Raise e, sent (DetailRequest (lower name)) st) ∧
  get_pokemon_by_name upstream name st
  = (Raise e, sent (DetailRequest (lower name)) st).
Proof.
  intros Hmiss Hreply Hparse.
  assert (fetch_pokemon_details upstream name st
          = (Raise e, sent (DetailRequest (lower name)) st)) as Hfetch.
  { rewrite (fetch_miss _ _ _ Hmiss), Hreply, fetch_finish_eq.
    cbn [reply_outcome Z.eqb Pos.eqb]. rewrite Hparse.
    by rewrite (parse_raises _ _ Hparse). }
  split; [done|]. unfold get_pokemon_by_name. by rewrite Hfetch.
Qed.

End ResolverFailures.

Lemma broken_detail_body_raises_witness :
  get_pokemon_by_name (pokeapi_garbled "ivysaur") "Ivysaur" start
  = (Raise JSONDecodeError, sent (DetailRequest "ivysaur") start).
Proof.
  refine (proj2 (broken_detail_body_raises (pokeapi_garbled "ivysaur")
                   "Ivysaur" start None JSONDecodeError _ _ _));
    reflexivity.
Defined.

(** ** More on the cache *)

Section CacheOfGather.

Context `{PyStr} `{Pydantic}.
Variable upstream : nat → request → reply.

Lemma complete_pending (p : pool) (j k : nat) (key : string) (i : nat) :
  (complete upstream p j).1.1 !! k = Some (Pending key i) →
  p.1.1 !! k = Some (Pending key i).
Proof.
  destruct p as [[ts fe] st]. rewrite complete_eq.
  destruct (ts !! j) as [[o|key' i']|] eqn:Hj; cbn [fst]; [done| |done].
  destruct (decide (j = k)) as [<-|Hne].
  - rewrite list_lookup_insert_eq; [done|]. by eapply lookup_lt_Some.
  - by rewrite list_lookup_insert_ne.
Qed.

(** A property of the cache that insertions under the keys of the
    suspended tasks keep is kept while the replies come in. *)
Lemma foldl_complete_cache (P : gmap string Pokemon → Prop) (K : string → Prop)
    (l : list nat) (p : pool) :
  (∀ c key q, K key → P c → P (<[key := q]> c)) →
  (∀ k key i, p.1.1 !! k = Some (Pending key i) → K key) →
  P (POKEMON_CACHE p.2) →
  P (POKEMON_CACHE (foldl (complete upstream) p l).2).
Proof.
  intros Hins. revert p. induction l as [|j l IH]; intros p HK HP; [done|].
  simpl. apply IH.
  - intros k key i Hk. apply complete_pending in Hk. by eapply HK.
  - destruct p as [[ts fe] st]. rewrite complete_eq. cbn [fst snd] in *.
    destruct (ts !! j) as [[o|key i]|] eqn:Hj; cbn [snd]; [done| |done].
    destruct (reply_outcome _) as [[q|]|e]; [|done..].
    simpl. apply Hins; [|done]. by eapply HK.
Qed.

Lemma spawn_pending_lower (names : list json) (st : state)
    (j : nat) (key : string) (i : nat) :
  (spawn names st).1 !! j = Some (Pending key i) → lower key = key.
Proof.
  revert st j. induction names as [|name names IH]; intros st j; [done|].
  simpl. destruct (start_task name st) as [t st1] eqn:Ht'.
  destruct (spawn names st1) as [ts st2] eqn:Hts. cbn [fst].
  destruct j as [|j]; simpl.
  - intros [= ->]. destruct name as [| | |s| |]; simpl in Ht'; try by simplify_eq.
    unfold fetch_start in Ht'. destruct (POKEMON_CACHE st !! lower s); [by simplify_eq|].
    injection Ht' as <- <- _. apply lower_idemp.
  - intros Hj. apply (IH st1 j). by rewrite Hts.
Qed.

Lemma gather_cache (P : gmap string Pokemon → Prop)
    (names : list json) (sched : list nat) (st : state) :
  (∀ c key q, lower key = key → P c → P (<[key := q]> c)) →
  P (POKEMON_CACHE st) →
  P (POKEMON_CACHE (gather upstream names sched st).2).
Proof.
  intros Hins HP. unfold gather.
  pose proof (spawn_spec upstream names st) as (Hc & _).
  pose proof (spawn_pending_lower names st) as Hlow.
  destruct (spawn names st) as [ts st1]. cbn [fst snd] in *.
  pose proof (foldl_complete_cache P (λ key, lower key = key)
                (sched ++ seq 0 (length ts)) (ts, started_exn ts, st1)
                Hins Hlow) as Hfold.
  cbn [fst snd] in Hfold. rewrite Hc in Hfold. specialize (Hfold HP).
  destruct (foldl _ _ _) as [[ts' fe] st2]. by destruct fe.
Qed.

Lemma get_pokemon_data_cache (P : gmap string Pokemon → Prop)
    (page limit : Z) (search : option string) (sched : list nat) (st : state) :
  (∀ c key q, lower key = key → P c → P (<[key := q]> c)) →
  P (POKEMON_CACHE st) →
  P (POKEMON_CACHE (get_pokemon_data upstream page limit search sched st).2).
Proof.
  intros Hins HP. rewrite get_pokemon_data_state.
  unfold get_pokemon_data_body. destruct (truthy search) as [s|].
  - unfold search_branch, client_get.
    destruct (search_page _ _ _ _) as [[total names]|e]; cbn [snd]; [|done].
    pose proof (gather_cache P names sched (sent (ListRequest 0 1000) st)
                  Hins HP) as Hg.
    by destruct (gather _ _ _ _).
  - unfold plain_branch, client_get.
    destruct (plain_page _) as [[total names]|e]; cbn [snd]; [|done].
    pose proof (gather_cache P names sched
                  (sent (ListRequest ((page - 1) * limit) limit) st)
                  Hins HP) as Hg.
    by destruct (gather _ _ _ _).
Qed.

Lemma lowercase_keys_insert (c : gmap string Pokemon) (key : string) (q : Pokemon) :
  lower key = key → lowercase_keys c → lowercase_keys (<[key := q]> c).
Proof.
  intros Hkey Hc k Hk. destruct (decide (key = k)) as [<-|Hne]; [done|].
  rewrite lookup_insert_ne in Hk by done. by apply Hc.
Qed.

(** The keys of the cache stay lowercased names, whatever the resolver, the
    lookup endpoint or the page aggregator is called with. *)
Theorem cache_keys_stay_lowercase (st : state) :
  lowercase_keys (POKEMON_CACHE st) →
  (∀ name,
     lowercase_keys (POKEMON_CACHE (fetch_pokemon_details upstream name st).2)) ∧
  (∀ name,
     lowercase_keys (POKEMON_CACHE (get_pokemon_by_name upstream name st).2)) ∧
  (∀ page limit search sched,
     lowercase_keys
       (POKEMON_CACHE (get_pokemon_data upstream page limit search sched st).2)).
Proof.
  intros Hst.
  assert (∀ name, lowercase_keys
            (POKEMON_CACHE (fetch_pokemon_details upstream name st).2)) as Hfetch.
  { intros name.
    destruct (fetch_pokemon_details upstream name st) as [o st'] eqn:Hrun.
    cbn [snd].
    destruct (fetch_writes upstream _ _ _ _ Hrun) as [->|(_ & p & _ & ->)];
      [done|].
    apply lowercase_keys_insert; [apply lower_idemp|done]. }
  split; [done|]. split.
  - intros name. specialize (Hfetch name). unfold get_pokemon_by_name.
    by destruct (fetch_pokemon_details upstream name st) as [[[p|]|e] st'].
  - intros. apply (get_pokemon_data_cache lowercase_keys); [|done].
    intros c key q. apply lowercase_keys_insert.
Qed.

End CacheOfGather.

Lemma cache_keys_stay_lowercase_witness :
  lowercase_keys
    (POKEMON_CACHE (get_pokemon_data pokeapi 1 3 (Some "SAUR") [1; 0]%nat start).2).
Proof.
  refine (proj2 (proj2 (cache_keys_stay_lowercase pokeapi start _))
            1 3 (Some "SAUR") [1; 0]%nat).
  intros key [p Hp]. simpl in Hp. by rewrite lookup_empty in Hp.
Defined.

Section WarmCache.

Context `{PyStr} `{Pydantic}.
Variable upstream : nat → request → reply.

Lemma start_task_cache (name : json) (st : state) :
  POKEMON_CACHE (start_task name st).2 = POKEMON_CACHE st.
Proof.
  destruct name as [| | |s| |]; try done. simpl. unfold fetch_start.
  by destruct (POKEMON_CACHE st !! lower s).
Qed.

(** The task of an entry whose name is a str: finished from the cache, or
    suspended on the request for the lowercased name. *)
Lemma spawn_lookup (names : list json) (st : state) (j : nat) (s : string) :
  names !! j = Some (JStr s) →
  ∃ t, (spawn names st).1 !! j = Some t ∧
       ((∃ p, POKEMON_CACHE st !! lower s = Some p ∧ t = Done (Return (Some p)))
        ∨ ∃ i, t = Pending (lower s) i).
Proof.
  revert st j. induction names as [|name names IH]; intros st j; [done|].
  simpl. pose proof (start_task_cache name st) as Hc.
  destruct (start_task name st) as [t st1] eqn:Ht. cbn [snd] in Hc.
  specialize (IH st1). destruct (spawn names st1) as [ts st2]. cbn [fst] in *.
  destruct j as [|j]; simpl.
  - intros [= ->]. exists t. split; [done|]. simpl in Ht. unfold fetch_start in Ht.
    destruct (POKEMON_CACHE st !! lower s) as [p|]; injection Ht as <- _.
    + left. by exists p.
    + right. by eexists.
  - intros Hj. rewrite <- Hc. by apply IH.
Qed.

Lemma foldl_complete_warm (l : list nat) (p : pool) (k : nat)
    (key : string) (i : nat) (q : Pokemon) :
  p.1.1 !! k = Some (Pending key i) →
  k ∈ l →
  reply_outcome (upstream i (DetailRequest key)) = Return (Some q) →
  is_Some (POKEMON_CACHE (foldl (complete upstream) p l).2 !! key).
Proof.
  intros Hk Hin Hq. revert p Hk Hin.
  induction l as [|j l IH]; intros p Hk Hin; [by apply elem_of_nil in Hin|].
  simpl. destruct (decide (j = k)) as [->|Hne].
  - apply (foldl_complete_cache upstream (λ c, is_Some (c !! key)) (λ _, True)).
    + intros c key' q' _ Hc. apply lookup_insert_is_Some.
      destruct (decide (key' = key)); [by left|by right].
    + done.
    + destruct p as [[ts fe] st]. rewrite complete_eq. cbn [fst snd] in *.
      rewrite Hk, Hq. simpl. rewrite lookup_insert_eq. by eexists.
  - apply IH.
    + destruct p as [[ts fe] st]. rewrite complete_eq. cbn [fst snd] in *.
      destruct (ts !! j) as [[o|key' i']|] eqn:Hj; cbn [fst]; [done| |done].
      by rewrite list_lookup_insert_ne.
    + apply elem_of_cons in Hin as [->|Hin]; done.
Qed.

(** After [gather], every entry that resolved to a record has a record in
    the cache under its lowercased name. *)
Lemma gather_warms (names : list json) (sched : list nat) (st : state)
    (j : nat) (s : string) (q : Pokemon) :
  names !! j = Some (JStr s) →
  resolutions upstream names (POKEMON_CACHE st) (length (requests st)) !! j
  = Some (Return (Some q)) →
  is_Some (POKEMON_CACHE (gather upstream names sched st).2 !! lower s).
Proof.
  intros Hj Hq.
  destruct (spawn_lookup names st j s Hj) as (t & Ht & [(p & Hp & _)|[i ->]]).
  { destruct (gather_spec upstream names sched st) as (_ & _ & Hkeep).
    exists p. by apply Hkeep. }
  pose proof (spawn_spec upstream names st) as (_ & _ & Hs & _).
  assert (reply_outcome (upstream i (DetailRequest (lower s)))
          = Return (Some q)) as Hout.
  { rewrite <- Hs, list_lookup_fmap, Ht in Hq. by injection Hq. }
  unfold gather. destruct (spawn names st) as [ts st1]. cbn [fst] in *.
  pose proof (foldl_complete_warm (sched ++ seq 0 (length ts))
                (ts, started_exn ts, st1) j (lower s) i q Ht) as Hwarm.
  destruct (foldl _ _ _) as [[ts' fe] st2]. cbn [snd] in Hwarm.
  assert (is_Some (POKEMON_CACHE st2 !! lower s)) as Hsome.
  { apply Hwarm; [|done]. apply elem_of_app. right. apply elem_of_seq.
    apply lookup_lt_Some in Ht. lia. }
  by destruct fe.
Qed.

(** A page warms the cache: when a page request returns a response, each
    entry of the page that resolved to a record is afterwards answered by
    the lookup endpoint from the cache, with a record and without a
    request. *)
Theorem page_warms_cache (page limit : Z) (search : option string)
    (sched : list nat) (st : state) (resp : PokemonResponse)
    (names : list json) (j : nat) (s : string) (q : Pokemon) :
  (get_pokemon_data upstream page limit search sched st).1 = Return resp →
  page_names upstream page limit search st = Return names →
  names !! j = Some (JStr s) →
  resolutions upstream names (POKEMON_CACHE st) (S (length (requests st))) !! j
  = Some (Return (Some q)) →
  ∃ p,
    get_pokemon_by_name upstream s
      (get_pokemon_data upstream page limit search sched st).2
    = (Return p, (get_pokemon_data upstream page limit search sched st).2).
Proof.
  intros _ Hnames Hj Hq.
  assert (is_Some (POKEMON_CACHE
            (get_pokemon_data upstream page limit search sched st).2
            !! lower s)) as [p Hp].
  { rewrite get_pokemon_data_state. revert Hnames.
    unfold get_pokemon_data_body, page_names, list_request.
    destruct (truthy search) as [term|].
    - unfold search_branch, client_get.
      destruct (search_page _ _ _ _) as [[total names']|e]; [|done].
      cbn [bind snd]. intros [= ->].
      pose proof (gather_warms names sched (sent (ListRequest 0 1000) st)
                    j s q Hj) as Hg.
      rewrite sent_length in Hg. specialize (Hg Hq).
      by destruct (gather _ _ _ _).
    - unfold plain_branch, client_get.
      destruct (plain_page _) as [[total names']|e]; [|done].
      cbn [bind snd]. intros [= ->].
      pose proof (gather_warms names sched
                    (sent (ListRequest ((page - 1) * limit) limit) st)
                    j s q Hj) as Hg.
      rewrite sent_length in Hg. specialize (Hg Hq).
      by destruct (gather _ _ _ _). }
  exists p. unfold get_pokemon_by_name. by rewrite (fetch_hit _ _ _ _ Hp).
Qed.

End WarmCache.

Lemma page_warms_cache_witness :
  ∃ p,
    get_pokemon_by_name pokeapi "ivysaur"
      (get_pokemon_data pokeapi 1 3 None [2; 0]%nat start).2
    = (Return p, (get_pokemon_data pokeapi 1 3 None [2; 0]%nat start).2).
Proof.
  refine (page_warms_cache pokeapi 1 3 None [2; 0]%nat start
            (match (get_pokemon_data pokeapi 1 3 None [2; 0]%nat start).1 with
             | Return resp => resp
             | Raise _ => PokemonResponse.mk [] 0 0 false
             end)
            [JStr "bulbasaur"; JStr "ivysaur"; JStr "venusaur"] 1 "ivysaur"
            (Pokemon.mk 2 "ivysaur" 7 69 ["grass"] (Some "art/ivysaur"))
            _ _ _ _); by vm_compute.
Defined.

(** ** More on the page aggregator *)

Section PageFacts.

Context `{PyStr} `{Pydantic}.
Variable upstream : nat → request → reply.

(** The handler raises nothing but the 500 of its handler. *)
Lemma get_pokemon_data_Raise (page limit : Z) (search : option string)
    (sched : list nat) (st : state) (e : exn) :
  (get_pokemon_data upstream page limit search sched st).1 = Raise e →
  ∃ e', e = HTTPException 500 (InternalServerError e').
Proof.
  unfold get_pokemon_data.
  destruct (get_pokemon_data_body _ _ _ _ _ _) as [[r|e'] st']; [done|].
  intros [= <-]. by exists e'.
Qed.

(** What stands behind a response: the names of the page, and a returned
    outcome for each. *)
Lemma page_Return (page limit : Z) (search : option string)
    (sched : list nat) (st : state) (resp : PokemonResponse) :
  (get_pokemon_data upstream page limit search sched st).1 = Return resp →
  ∃ names vs,
    page_names upstream page limit search st = Return names ∧
    resolutions upstream names (POKEMON_CACHE st) (S (length (requests st)))
    = Return <$> vs ∧
    PokemonResponse.pokemon resp = not_None vs.
Proof.
  rewrite get_pokemon_data_Return.
  unfold get_pokemon_data_body, page_names, list_request.
  destruct (truthy search) as [s|].
  - rewrite search_branch_Return.
    intros (total & names & vs & Hpage & Hvs & ->).
    exists names, vs. by rewrite Hpage.
  - rewrite plain_branch_Return.
    intros (count & names & vs & b & total & Hpage & Hvs & _ & _ & ->).
    exists names, vs. by rewrite Hpage.
Qed.

(** One resolution of the page that raises, as on a 200 with a body that
    does not parse, fails the whole page request with a 500; the records
    of the other entries are not returned. *)
Theorem raising_detail_fails_page (page limit : Z) (search : option string)
    (sched : list nat) (st : state) (names : list json) (j : nat) (e : exn) :
  page_names upstream page limit search st = Return names →
  resolutions upstream names (POKEMON_CACHE st) (S (length (requests st))) !! j
  = Some (Raise e) →
  ∃ e',
    (get_pokemon_data upstream page limit search sched st).1
    = Raise (HTTPException 500 (InternalServerError e')).
Proof.
  intros Hnames Hj.
  destruct (get_pokemon_data upstream page limit search sched st).1
    as [resp|e0] eqn:Hrun.
  - apply page_Return in Hrun as (names' & vs & Hnames' & Hvs & _).
    rewrite Hnames in Hnames'. injection Hnames' as <-.
    rewrite Hvs, list_lookup_fmap in Hj. by destruct (vs !! j).
  - destruct (get_pokemon_data_Raise _ _ _ _ _ _ Hrun) as [e' ->]. by exists e'.
Qed.

Lemma resolutions_length (names : list json) (cache : gmap string Pokemon)
    (i : nat) :
  length (resolutions upstream names cache i) = length names.
Proof.
  revert i. induction names as [|name names IH]; intros i; [done|].
  destruct name as [| | |s| |]; simpl; try by rewrite IH.
  destruct (cache !! lower s); simpl; by rewrite IH.
Qed.

Lemma not_None_length (vs : list (option Pokemon)) :
  (length (not_None vs) ≤ length vs)%nat.
Proof.
  unfold not_None. induction vs as [|[p|] vs IH]; [done| |];
    cbn [omap list_omap length]; lia.
Qed.

(** A response has no more records than the page has entries. With search
    the page is a slice of at most [limit] entries; without search it is
    the list the upstream returned, which the handler does not cut. *)
Theorem page_size_bounded (page limit : Z) (search : option string)
    (sched : list nat) (st : state) (resp : PokemonResponse) :
  valid_query page limit →
  (get_pokemon_data upstream page limit search sched st).1 = Return resp →
  match truthy search with
  | Some _ => (length (PokemonResponse.pokemon resp) ≤ Z.to_nat limit)%nat
  | None =>
      ∃ data results items,
        upstream (length (requests st)) (ListRequest ((page - 1) * limit) limit)
        = Response 200 (Some data) ∧
        py_getitem data "results" = Return results ∧
        py_iter results = Return items ∧
        (length (PokemonResponse.pokemon resp) ≤ length items)%nat
  end.
Proof.
  intros Hquery. rewrite get_pokemon_data_Return. unfold get_pokemon_data_body.
  destruct (truthy search) as [s|].
  - rewrite search_branch_Return.
    intros (total & names & vs & Hpage & Hvs & ->). cbn [PokemonResponse.pokemon].
    apply search_page_Return in Hpage as (_ & _ & items & _ & _ & _ & _ & Hnames).
    rewrite py_slice_page in Hnames by done.
    apply traverse_length in Hnames. rewrite length_take in Hnames.
    pose proof (not_None_length vs). apply (f_equal length) in Hvs.
    rewrite resolutions_length, length_fmap in Hvs. lia.
  - rewrite plain_branch_Return.
    intros (count & names & vs & b & total & Hpage & Hvs & _ & _ & ->).
    cbn [PokemonResponse.pokemon].
    apply plain_page_Return in Hpage
      as (data & results & items & Hr & Hres & _ & Hitems & Hnames).
    exists data, results, items. repeat split; try done.
    apply traverse_length in Hnames.
    pose proof (not_None_length vs). apply (f_equal length) in Hvs.
    rewrite resolutions_length, length_fmap in Hvs. lia.
Qed.

Lemma search_filter_case (s1 s2 : string) (items : list json) :
  lower s1 = lower s2 → search_filter s1 items = search_filter s2 items.
Proof.
  intros Hcase. induction items as [|item items IH]; [done|].
  cbn [search_filter]. by rewrite IH, Hcase.
Qed.

Lemma search_page_case (page limit : Z) (s1 s2 : string) (r : reply) :
  lower s1 = lower s2 → search_page page limit s1 r = search_page page limit s2 r.
Proof.
  intros Hcase. unfold search_page.
  destruct (list_data r) as [data|]; [|done]. cbn [bind].
  destruct (py_getitem data "results") as [results|]; [|done]. cbn [bind].
  destruct (py_iter results) as [items|]; [|done]. cbn [bind].
  by rewrite (search_filter_case s1 s2).
Qed.

(** The letter case of the search term plays no part: two terms that differ
    in case only give the same result and the same state. *)
Theorem search_term_case_is_ignored (page limit : Z) (s1 s2 : string)
    (sched : list nat) (st : state) :
  lower s1 = lower s2 →
  get_pokemon_data upstream page limit (Some s1) sched st
  = get_pokemon_data upstream page limit (Some s2) sched st.
Proof.
  intros Hcase. unfold get_pokemon_data, get_pokemon_data_body. cbn [truthy].
  destruct (String.eqb_spec s1 "") as [->|H1];
    destruct (String.eqb_spec s2 "") as [->|H2]; try done.
  - rewrite (proj2 (lower_nil "") eq_refl) in Hcase.
    symmetry in Hcase. by apply (proj1 (lower_nil s2)) in Hcase.
  - rewrite (proj2 (lower_nil "") eq_refl) in Hcase.
    by apply (proj1 (lower_nil s1)) in Hcase.
  - unfold search_branch, client_get.
    by rewrite (search_page_case page limit s1 s2).
Qed.

End PageFacts.

Lemma raising_detail_fails_page_witness :
  ∃ e',
    (get_pokemon_data (pokeapi_garbled "ivysaur") 1 3 None [] start).1
    = Raise (HTTPException 500 (InternalServerError e')).
Proof.
  refine (raising_detail_fails_page (pokeapi_garbled "ivysaur") 1 3 None []
            start [JStr "bulbasaur"; JStr "ivysaur"; JStr "venusaur"] 1
            JSONDecodeError _ _); by vm_compute.
Defined.

Lemma page_size_bounded_witness :
  (length (PokemonResponse.pokemon
             (match (get_pokemon_data pokeapi 1 2 (Some "a") [] start).1 with
              | Return resp => resp
              | Raise _ => PokemonResponse.mk [] 0 0 false
              end)) ≤ 2)%nat.
Proof.
  refine (page_size_bounded pokeapi 1 2 (Some "a") [] start _ _ _).
  - unfold valid_query. lia.
  - by vm_compute.
Defined.

Lemma search_term_case_is_ignored_witness :
  get_pokemon_data pokeapi 1 2 (Some "ChAr") [] start
  = get_pokemon_data pokeapi 1 2 (Some "char") [] start.
Proof.
  refine (search_term_case_is_ignored pokeapi 1 2 "ChAr" "char" [] start _).
  reflexivity.
Defined.

Section SearchPages.

Context `{PyStr} `{Pydantic}.
Variable upstream : nat → request → reply.

(** With search, has_more tells whether the filter kept entries beyond
    this page, and a page beyond the last entry is a response without
    records that costs the list call only. *)
Theorem search_has_more_is_exact (page limit : Z) (search : option string)
    (s : string) (sched : list nat) (st : state) (resp : PokemonResponse)
    (data results : json) (items : list json) :
  valid_query page limit →
  truthy search = Some s →
  (get_pokemon_data upstream page limit search sched st).1 = Return resp →
  upstream (length (requests st)) (ListRequest 0 1000) = Response 200 (Some data) →
  py_getitem data "results" = Return results →
  py_iter results = Return items →
  let kept := filter (matches s) items in
  (PokemonResponse.has_more resp = true
   ↔ (Z.to_nat (page * limit) < length kept)%nat) ∧
  ((length kept ≤ Z.to_nat ((page - 1) * limit))%nat →
   PokemonResponse.pokemon resp = [] ∧
   PokemonResponse.has_more resp = false ∧
   requests (get_pokemon_data upstream page limit search sched st).2
   = requests st ++ [ListRequest 0 1000]).
Proof.
  intros Hquery Hs Hresp Hreply Hres Hitems kept.
  rewrite get_pokemon_data_state. revert Hresp.
  rewrite get_pokemon_data_Return. unfold get_pokemon_data_body. rewrite Hs.
  rewrite search_branch_Return, search_branch_requests.
  intros (total & names & vs & Hpage & Hvs & ->). rewrite Hpage.
  apply search_page_Return in Hpage
    as (data' & results' & items' & Hr & Hres' & Hitems' & -> & Hnames).
  rewrite Hreply in Hr. injection Hr as <-.
  rewrite Hres in Hres'. injection Hres' as <-.
  rewrite Hitems in Hitems'. injection Hitems' as <-. fold kept in Hnames |- *.
  cbn [PokemonResponse.has_more PokemonResponse.pokemon].
  destruct Hquery as [Hp [Hl Hl']].
  assert (0 ≤ (page - 1) * limit) by nia.
  replace (page * limit) with ((page - 1) * limit + limit) by ring.
  split.
  - rewrite Z.ltb_lt. lia.
  - intros Hpast. rewrite py_slice_page in Hnames by done.
    rewrite drop_ge, take_nil in Hnames by done. injection Hnames as <-.
    simpl in Hvs. destruct vs; [|done]. split; [done|]. split; [|done].
    apply Z.ltb_ge. lia.
Qed.

End SearchPages.

Lemma search_has_more_is_exact_witness :
  let resp := match (get_pokemon_data pokeapi 2 2 (Some "char") [] start).1 with
              | Return resp => resp
              | Raise _ => PokemonResponse.mk [] 0 0 true
              end in
  PokemonResponse.has_more resp = true
  ↔ (Z.to_nat (2 * 2)
     < length (filter (matches "char") (entry <$> py_slice pokedex 0 1000)))%nat.
Proof.
  intros resp.
  refine (proj1 (search_has_more_is_exact pokeapi 2 2 (Some "char") "char" []
                   start resp _ _ _ _ _ _ _ _ _)).
  - unfold valid_query. lia.
  - reflexivity.
  - by vm_compute.
  - reflexivity.
  - reflexivity.
  - reflexivity.
Defined.

Section CachedPages.

Context `{PyStr} `{Pydantic}.
Variable upstream : nat → request → reply.

(** The entry is a str whose lowercased form is cached with [p]. *)
Lemma resolutions_cached (names : list json) (cache : gmap string Pokemon)
    (i : nat) (ps : list Pokemon) :
  Forall2 (λ name p, ∃ s, name = JStr s ∧ cache !! lower s = Some p) names ps →
  resolutions upstream names cache i = Return <$> (Some <$> ps) ∧
  detail_requests names cache = [].
Proof.
  induction 1 as [|name p names ps (s & -> & Hs) _ [IH1 IH2]]; [done|].
  simpl. by rewrite Hs, IH1, IH2.
Qed.

Lemma not_None_Some (ps : list Pokemon) : not_None (Some <$> ps) = ps.
Proof.
  unfold not_None. induction ps as [|p ps IH]; [done|].
  rewrite fmap_cons. cbn [omap list_omap]. by rewrite IH.
Qed.

(** A page whose entries are all cached costs the list call and nothing
    else: no detail call is sent, and a response holds the cached records
    in the order of the entries. *)
Theorem cached_page_costs_one_call (page limit : Z) (search : option string)
    (sched : list nat) (st : state) (names : list json) (ps : list Pokemon) :
  page_names upstream page limit search st = Return names →
  Forall2 (λ name p, ∃ s, name = JStr s ∧ POKEMON_CACHE st !! lower s = Some p)
    names ps →
  requests (get_pokemon_data upstream page limit search sched st).2
  = requests st ++ [list_request page limit search] ∧
  ∀ resp,
    (get_pokemon_data upstream page limit search sched st).1 = Return resp →
    PokemonResponse.pokemon resp = ps.
Proof.
  intros Hnames Hps.
  destruct (resolutions_cached names (POKEMON_CACHE st)
              (S (length (requests st))) ps Hps) as [Hres Hreq].
  split.
  - rewrite get_pokemon_data_state. revert Hnames.
    unfold get_pokemon_data_body, page_names, list_request.
    destruct (truthy search) as [s|].
    + rewrite search_branch_requests.
      destruct (search_page _ _ _ _) as [[total names']|e]; [|done].
      cbn [bind]. intros [= ->]. by rewrite Hreq.
    + rewrite plain_branch_requests.
      destruct (plain_page _) as [[total names']|e]; [|done].
      cbn [bind]. intros [= ->]. by rewrite Hreq.
  - intros resp Hresp. apply page_Return in Hresp as (names' & vs & Hn & Hvs & ->).
    rewrite Hnames in Hn. injection Hn as <-. rewrite Hres in Hvs.
    apply Return_fmap_inj in Hvs as <-. apply not_None_Some.
Qed.

(** What one resolution, run on its own, does to the state: the cache gets
    the record it returns under the lowercased name and is otherwise left
    as it is, so that an absence or an exception is never cached; and a
    request is sent exactly when the lowercased name is not cached. *)
Theorem resolver_frame (name : string) (st : state) :
  POKEMON_CACHE (fetch_pokemon_details upstream name st).2
  = match (fetch_pokemon_details upstream name st).1 with
    | Return (Some p) => <[lower name := p]> (POKEMON_CACHE st)
    | _ => POKEMON_CACHE st
    end ∧
  requests (fetch_pokemon_details upstream name st).2
  = match POKEMON_CACHE st !! lower name with
    | Some _ => requests st
    | None => requests st ++ [DetailRequest (lower name)]
    end.
Proof.
  destruct (POKEMON_CACHE st !! lower name) as [p|] eqn:Hname.
  - rewrite (fetch_hit _ _ _ _ Hname). cbn [fst snd].
    by rewrite insert_id.
  - rewrite (fetch_miss _ _ _ Hname), fetch_finish_eq. cbn [fst snd].
    by destruct (reply_outcome _) as [[p|]|e].
Qed.

End CachedPages.

Lemma cached_page_costs_one_call_witness :
  let st := (get_pokemon_data pokeapi 1 2 None [] start).2 in
  requests (get_pokemon_data pokeapi 1 2 None [1; 0]%nat st).2
  = requests st ++ [ListRequest 0 2].
Proof.
  intros st.
  refine (proj1 (cached_page_costs_one_call pokeapi 1 2 None [1; 0]%nat st
                   [JStr "bulbasaur"; JStr "ivysaur"]
                   [Pokemon.mk 1 "bulbasaur" 7 69 ["grass"] (Some "art/bulbasaur");
                    Pokemon.mk 2 "ivysaur" 7 69 ["grass"] (Some "art/ivysaur")]
                   _ _)).
  - by vm_compute.
  - repeat constructor; eexists; (split; [reflexivity|by vm_compute]).
Defined.

(** ** More on slices and on the image *)

(** The slices of two consecutive pages are adjacent: together they are
    the 2 * limit entries from the offset of the first one. *)
Theorem consecutive_pages_are_adjacent {A} (l : list A) (page limit : Z) :
  valid_query page limit →
  py_slice l ((page - 1) * limit) ((page - 1) * limit + limit)
  ++ py_slice l ((page + 1 - 1) * limit) ((page + 1 - 1) * limit + limit)
  = py_slice l ((page - 1) * limit) ((page - 1) * limit + 2 * limit).
Proof.
  intros Hquery. destruct (Hquery) as [Hp [Hl Hl']].
  rewrite !py_slice_page by (unfold valid_query; lia).
  assert (0 ≤ (page - 1) * limit) by nia.
  replace (Z.to_nat ((page + 1 - 1) * limit))
    with (Z.to_nat ((page - 1) * limit) + Z.to_nat limit)%nat by nia.
  rewrite <- drop_drop, take_take_drop.
  unfold py_slice, clamp.
  destruct (Z.ltb_spec ((page - 1) * limit) 0); [lia|].
  destruct (Z.ltb_spec ((page - 1) * limit + 2 * limit) 0); [lia|].
  set (o := (page - 1) * limit) in *. set (n := Z.of_nat (length l)).
  destruct (Z.le_gt_cases n o).
  - rewrite !drop_ge by lia. by rewrite !take_nil.
  - rewrite (Z.min_l o) by lia.
    destruct (Z.le_gt_cases (o + 2 * limit) n).
    + rewrite Z.min_l by lia. f_equal. lia.
    + rewrite Z.min_r by lia.
      rewrite !take_ge; [done| |]; rewrite length_drop; lia.
Qed.

Lemma consecutive_pages_are_adjacent_witness :
  py_slice pokedex 3 6 ++ py_slice pokedex 6 9 = py_slice pokedex 3 9.
Proof.
  refine (consecutive_pages_are_adjacent pokedex 2 3 _).
  unfold valid_query. lia.
Defined.

(** The lookup of the image never lets an exception out, whatever the
    body is: it gives the value at the end of the path, or None. *)
Theorem image_lookup_never_raises `{Pydantic} (data : json) :
  ∃ v, image_url_of data = Return v ∧
       (v = JNull ∨
        ∃ sprites other artwork,
          py_getitem data "sprites" = Return sprites ∧
          py_getitem sprites "other" = Return other ∧
          py_getitem other "official-artwork" = Return artwork ∧
          py_getitem artwork "front_default" = Return v).
Proof.
  unfold image_url_of.
  destruct (py_getitem data "sprites") as [sprites|e] eqn:H1; cbn [bind].
  2:{ rewrite (py_getitem_raises _ _ _ H1). eauto. }
  destruct (py_getitem sprites "other") as [other|e] eqn:H2; cbn [bind].
  2:{ rewrite (py_getitem_raises _ _ _ H2). eauto. }
  destruct (py_getitem other "official-artwork") as [artwork|e] eqn:H3;
    cbn [bind].
  2:{ rewrite (py_getitem_raises _ _ _ H3). eauto. }
  destruct (py_getitem artwork "front_default") as [v|e] eqn:H4.
  - exists v. split; [done|]. right. by exists sprites, other, artwork.
  - rewrite (py_getitem_raises _ _ _ H4). eauto.
Qed.

(** ** The descending sort *)

Section Sorting.

Context {A : Type} (key : A → Z).

Lemma insert_desc_perm (x : A) (l : list A) : insert_desc key x l ≡ₚ x :: l.
Proof.
  induction l as [|y l IH]; simpl; [done|].
  destruct (key x <? key y); [|done]. rewrite IH. apply Permutation_swap.
Qed.

Lemma sorted_reverse_perm (l : list A) : sorted_reverse key l ≡ₚ l.
Proof.
  induction l as [|x l IH]; [done|]. simpl.
  by rewrite insert_desc_perm, IH.
Qed.

Lemma insert_desc_sorted (x : A) (l : list A) :
  StronglySorted (λ a b, key b ≤ key a) l →
  StronglySorted (λ a b, key b ≤ key a) (insert_desc key x l).
Proof.
  induction 1 as [|y l Hl IH Hy]; simpl; [by repeat constructor|].
  destruct (Z.ltb_spec (key x) (key y)).
  - constructor; [done|]. rewrite insert_desc_perm. constructor; [lia|done].
  - constructor; [by constructor|]. constructor; [done|].
    eapply Forall_impl; [exact Hy|]. simpl. intros z Hz. lia.
Qed.

Lemma sorted_reverse_sorted (l : list A) :
  StronglySorted (λ a b, key b ≤ key a) (sorted_reverse key l).
Proof.
  induction l as [|x l IH]; simpl; [constructor|]. by apply insert_desc_sorted.
Qed.

Lemma insert_desc_stable (k : Z) (x : A) (l : list A) :
  filter (λ a, key a = k) (insert_desc key x l)
  = filter (λ a, key a = k) (x :: l).
Proof.
  induction l as [|y l IH]; simpl; [done|].
  destruct (Z.ltb_spec (key x) (key y)); [|done].
  rewrite (filter_cons _ y), IH, !filter_cons.
  repeat case_decide; try done. lia.
Qed.

Lemma sorted_reverse_stable (k : Z) (l : list A) :
  filter (λ a, key a = k) (sorted_reverse key l) = filter (λ a, key a = k) l.
Proof.
  induction l as [|x l IH]; [done|]. simpl.
  by rewrite insert_desc_stable, !filter_cons, IH.
Qed.

End Sorting.

Lemma py_slice_prefix {A} (l : list A) (n : Z) :
  py_slice l 0 n
  = if n <? 0 then take (length l - Z.to_nat (- n)) l else take (Z.to_nat n) l.
Proof.
  unfold py_slice, clamp. simpl. rewrite !(Z.min_l 0) by lia. rewrite drop_0.
  destruct (Z.ltb_spec n 0).
  - f_equal. lia.
  - destruct (Z.le_gt_cases n (Z.of_nat (length l))).
    + f_equal. lia.
    + rewrite !take_ge; [done| |]; lia.
Qed.

(** ** The timeline *)

(** What [get_timeline] and [get_chat_messages] do after the filter: sort,
    then cut a prefix. *)
Lemma sort_and_cut {A} (key : A → Z) (l : list A) (limit : option Z) :
  match nonzero limit with
  | Some limit => py_slice (sorted_reverse key l) 0 limit
  | None => sorted_reverse key l
  end
  = match limit with
    | None => sorted_reverse key l
    | Some n =>
        if n =? 0 then sorted_reverse key l
        else if n <? 0
        then take (length l - Z.to_nat (- n)) (sorted_reverse key l)
        else take (Z.to_nat n) (sorted_reverse key l)
    end.
Proof.
  destruct limit as [n|]; [|done]. simpl. destruct (n =? 0); [done|].
  by rewrite py_slice_prefix, (Permutation_length (sorted_reverse_perm key l)).
Qed.

Lemma sort_and_cut_sorted {A} (key : A → Z) (l : list A) (limit : option Z) :
  StronglySorted (λ a b, key b ≤ key a)
    match nonzero limit with
    | Some limit => py_slice (sorted_reverse key l) 0 limit
    | None => sorted_reverse key l
    end.
Proof.
  pose proof (sorted_reverse_sorted key l) as Hsorted.
  assert (∀ n, StronglySorted (λ a b, key b ≤ key a)
                 (take n (sorted_reverse key l))) as Htake.
  { intros n. rewrite <- (take_drop n (sorted_reverse key l)) in Hsorted.
    by apply StronglySorted_app_1_l in Hsorted. }
  rewrite sort_and_cut. destruct limit as [n|]; [|done].
  destruct (n =? 0); [done|]. by destruct (n <? 0).
Qed.

Lemma sort_and_cut_sublist {A} (key : A → Z) (l : list A) (limit : option Z) (x : A) :
  x ∈ match nonzero limit with
      | Some limit => py_slice (sorted_reverse key l) 0 limit
      | None => sorted_reverse key l
      end →
  x ∈ l.
Proof.
  rewrite sort_and_cut. intros Hx.
  assert (x ∈ sorted_reverse key l) as Hin.
  { destruct limit as [n|]; [|done]. destruct (n =? 0); [done|].
    destruct (n <? 0); (eapply elem_of_sublist; [exact Hx|apply sublist_take]). }
  by rewrite sorted_reverse_perm in Hin.
Qed.

(** The events of the timeline come newest first; each is an event of the
    list, of the requested type when a type is given. Without a limit they
    are all the events of that type, and events with the same timestamp
    keep the order of the list. *)
Theorem timeline_newest_first (events : list TimelineEvent)
    (type : option string) (limit : option Z) :
  let chosen := match truthy type with
                | Some ty => filter (λ event, TimelineEvent.type event = ty) events
                | None => events
                end in
  StronglySorted
    (λ a b, TimelineEvent.timestamp b ≤ TimelineEvent.timestamp a)
    (get_timeline events type limit) ∧
  (∀ event, event ∈ get_timeline events type limit →
     event ∈ events ∧
     ∀ ty, truthy type = Some ty → TimelineEvent.type event = ty) ∧
  get_timeline events type None ≡ₚ chosen ∧
  (∀ t, filter (λ event, TimelineEvent.timestamp event = t)
          (get_timeline events type None)
        = filter (λ event, TimelineEvent.timestamp event = t) chosen).
Proof.
  intros chosen. unfold get_timeline. fold chosen.
  split; [apply sort_and_cut_sorted|].
  split; [|split; [apply sorted_reverse_perm|intros; apply sorted_reverse_stable]].
  intros event Hin. apply sort_and_cut_sublist in Hin. unfold chosen in Hin.
  destruct (truthy type) as [ty|].
  - apply list_elem_of_filter in Hin as [Hty Hin]. split; [done|].
    by intros ? [= <-].
  - by split.
Qed.

(** The limit of the timeline cuts a prefix of the events, newest first:
    a positive limit keeps that many, a negative limit leaves out that
    many of the oldest, and limit 0 cuts nothing, like no limit. *)
Theorem timeline_limit (events : list TimelineEvent)
    (type : option string) (limit : option Z) :
  let all := get_timeline events type None in
  get_timeline events type limit
  = match limit with
    | None => all
    | Some n =>
        if n =? 0 then all
        else if n <? 0 then take (length all - Z.to_nat (- n)) all
        else take (Z.to_nat n) all
    end.
Proof.
  intros all. unfold all, get_timeline. rewrite sort_and_cut. cbn [nonzero].
  destruct limit as [n|]; [|done]. destruct (n =? 0); [done|].
  by rewrite (Permutation_length (sorted_reverse_perm _ _)).
Qed.

(** With a clock that stands still while the module is loaded, the latest
    three notes. *)
Example timeline_latest_notes :
  TimelineEvent.id
    <$> get_timeline (TIMELINE_EVENTS (λ _, 1700000000000000)) (Some "Note")
          (Some 3)
  = [7; 9; 10].
Proof. by vm_compute. Qed.

Lemma get_timeline_event_spec (events : list TimelineEvent) (event_id : Z) :
  match get_timeline_event events event_id with
  | Return event =>
      ∃ before after,
        events = before ++ event :: after ∧
        TimelineEvent.id event = event_id ∧
        Forall (λ e, TimelineEvent.id e ≠ event_id) before
  | Raise e =>
      e = HTTPException 404 (Text "Timeline event not found") ∧
      Forall (λ e, TimelineEvent.id e ≠ event_id) events
  end.
Proof.
  induction events as [|event events IH]; simpl; [done|].
  destruct (Z.eqb_spec (TimelineEvent.id event) event_id) as [Hid|Hid].
  - by exists [], events.
  - destruct (get_timeline_event events event_id) as [found|e].
    + destruct IH as (before & after & -> & Hfound & Hbefore).
      exists (event :: before), after. split; [done|]. split; [done|].
      by constructor.
    + destruct IH as [-> Hall]. split; [done|]. by constructor.
Qed.

(** The lookup of an event returns the first event of the list with the
    id, and fails with 404 exactly when no event has the id. *)
Theorem timeline_event_lookup (events : list TimelineEvent) (event_id : Z) :
  (∀ event,
     get_timeline_event events event_id = Return event ↔
     ∃ before after,
       events = before ++ event :: after ∧
       TimelineEvent.id event = event_id ∧
       Forall (λ e, TimelineEvent.id e ≠ event_id) before) ∧
  (get_timeline_event events event_id
   = Raise (HTTPException 404 (Text "Timeline event not found")) ↔
   Forall (λ e, TimelineEvent.id e ≠ event_id) events) ∧
  (∀ e, get_timeline_event events event_id = Raise e →
        e = HTTPException 404 (Text "Timeline event not found")).
Proof.
  pose proof (get_timeline_event_spec events event_id) as Hspec.
  split; [|split].
  - intros event. split.
    + intros Hget. rewrite Hget in Hspec. done.
    + intros (before & after & -> & Hid & Hbefore). clear Hspec.
      induction Hbefore as [|e before He _ IH]; simpl.
      * by rewrite (proj2 (Z.eqb_eq _ _) Hid).
      * by rewrite (proj2 (Z.eqb_neq _ _) He).
  - split.
    + intros Hget. rewrite Hget in Hspec. by destruct Hspec.
    + intros Hall. destruct (get_timeline_event events event_id) as [event|e].
      * destruct Hspec as (before & after & -> & Hid & _).
        apply Forall_app in Hall as [_ Hall]. by inversion Hall.
      * by destruct Hspec as [-> _].
  - intros e Hget. rewrite Hget in Hspec. by destruct Hspec.
Qed.

(** ** The chat *)

(** A message of which [strip] leaves nothing, the empty message among
    them, is refused with a 400, and then nothing is stored and no id is
    used up; any other message is accepted, and the handler raises nothing
    but that 400. *)
Theorem blank_message_is_refused `{PyStr} (chat_request : ChatRequest)
    (now1 : Z) (choice : nat) (now2 : Z) (st : chat) :
  ((post_chat_message chat_request now1 choice now2 st).1
   = Raise (HTTPException 400 (Text "Message cannot be empty"))
   ↔ strip (ChatRequest.message chat_request) = "") ∧
  (ChatRequest.message chat_request = "" →
   (post_chat_message chat_request now1 choice now2 st).1
   = Raise (HTTPException 400 (Text "Message cannot be empty"))) ∧
  (strip (ChatRequest.message chat_request) ≠ "" →
   ∃ response,
     (post_chat_message chat_request now1 choice now2 st).1 = Return response) ∧
  (∀ e, (post_chat_message chat_request now1 choice now2 st).1 = Raise e →
        e = HTTPException 400 (Text "Message cannot be empty") ∧
        (post_chat_message chat_request now1 choice now2 st).2 = st).
Proof.
  assert (ChatRequest.message chat_request = "" →
          strip (ChatRequest.message chat_request) = "") as Hempty.
  { intros ->. apply strip_nil. }
  unfold post_chat_message, post_begin.
  destruct (String.eqb_spec (strip (ChatRequest.message chat_request)) "")
    as [Hblank|Hfull]; simpl.
  - split; [done|]. split; [done|]. split; [done|]. by intros e [= <-].
  - split; [split; [done|by intros Hblank]|].
    split; [by intros Hnil; apply Hempty in Hnil|]. split; [by eexists|done].
Qed.

Lemma blank_message_is_refused_witness :
  post_chat_message (ChatRequest.mk "ann" "") 5 3 9 chat_start
  = (Raise (HTTPException 400 (Text "Message cannot be empty")), chat_start) ∧
  post_chat_message (ChatRequest.mk "ann" "  ") 5 3 9 chat_start
  = (Raise (HTTPException 400 (Text "Message cannot be empty")), chat_start) ∧
  ∃ response,
    (post_chat_message (ChatRequest.mk "ann" " hi ") 5 3 9 chat_start).1
    = Return response.
Proof.
  assert (∀ message,
            strip message = "" →
            post_chat_message (ChatRequest.mk "ann" message) 5 3 9 chat_start
            = (Raise (HTTPException 400 (Text "Message cannot be empty")),
               chat_start)) as Hblank.
  { intros message Hstrip.
    pose proof (blank_message_is_refused (ChatRequest.mk "ann" message) 5 3 9
                  chat_start) as (H400 & _ & _ & Hraise).
    apply H400 in Hstrip. destruct (Hraise _ Hstrip) as [_ Hstate].
    destruct (post_chat_message _ _ _ _ _) as [r st'].
    simpl in Hstrip, Hstate. by subst. }
  split; [by apply Hblank|]. split; [by apply Hblank|].
  pose proof (blank_message_is_refused (ChatRequest.mk "ann" " hi ") 5 3 9
                chat_start) as (_ & _ & Hfull & _).
  apply Hfull. by vm_compute.
Defined.

(** An accepted message is stored with the id of the counter, followed by
    the reply of the bot with the next id, and the counter moves on by
    two; the response holds these two messages. *)
Theorem post_stores_message_and_reply `{PyStr} (chat_request : ChatRequest) (now1 : Z)
    (choice : nat) (now2 : Z) (st : chat) :
  strip (ChatRequest.message chat_request) ≠ "" →
  let user_message :=
    ChatMessage.mk (message_id_counter st) (ChatRequest.sender chat_request)
      (ChatRequest.message chat_request) now1 in
  let bot_message :=
    ChatMessage.mk (message_id_counter st + 1) "Bot"
      (generate_bot_reply choice (ChatRequest.message chat_request)) now2 in
  post_chat_message chat_request now1 choice now2 st
  = (Return (ChatResponse.mk user_message bot_message),
     mkChat (CHAT_MESSAGES st ++ [user_message; bot_message])
       (message_id_counter st + 2)).
Proof.
  intros Hfull. unfold post_chat_message, post_begin.
  destruct (String.eqb_spec (strip (ChatRequest.message chat_request)) "")
    as [Hblank|_]; [done|].
  simpl. unfold append. simpl. rewrite <- app_assoc. simpl.
  by replace (message_id_counter st + 1 + 1) with (message_id_counter st + 2)
    by lia.
Qed.

Lemma post_stores_message_and_reply_witness :
  post_chat_message (ChatRequest.mk "ann" " I need HELP ") 5 3 9 chat_start
  = (Return (ChatResponse.mk
               (ChatMessage.mk 1 "ann" " I need HELP " 5)
               (ChatMessage.mk 2 "Bot"
                  "Sure! What do you need assistance with?" 9)),
     mkChat [ChatMessage.mk 1 "ann" " I need HELP " 5;
             ChatMessage.mk 2 "Bot" "Sure! What do you need assistance with?" 9]
       3).
Proof.
  refine (post_stores_message_and_reply
            (ChatRequest.mk "ann" " I need HELP ") 5 3 9 chat_start _).
  by vm_compute.
Defined.

Lemma create_append_ids (sender message : string) (now : Z) (st : chat) :
  ChatMessage.id <$> CHAT_MESSAGES st = seqZ 1 (message_id_counter st - 1) →
  1 ≤ message_id_counter st →
  let st' := append (create_chat_message sender message now st).1
               (create_chat_message sender message now st).2 in
  ChatMessage.id <$> CHAT_MESSAGES st' = seqZ 1 (message_id_counter st' - 1) ∧
  1 ≤ message_id_counter st'.
Proof.
  intros Hids Hone. simpl. rewrite fmap_app, Hids. simpl. split; [|lia].
  replace (message_id_counter st + 1 - 1)
    with ((message_id_counter st - 1) + 1) by lia.
  rewrite seqZ_app by lia.
  assert (seqZ (1 + (message_id_counter st - 1)) 1 = [message_id_counter st])
    as ->; [|done].
  unfold seqZ. simpl. do 2 f_equal. lia.
Qed.

(** The ids of the stored messages are 1, 2, 3, ... in the order of the
    list, and the counter is the next id: this holds in every state the
    chat reaches, however the requests that sleep at the same time take
    turns. *)
Theorem chat_ids_are_consecutive `{PyStr} (st : chat) :
  rtc chat_step chat_start st →
  ChatMessage.id <$> CHAT_MESSAGES st = seqZ 1 (message_id_counter st - 1) ∧
  1 ≤ message_id_counter st.
Proof.
  revert st. apply rtc_ind_r; [done|].
  intros st st' _ Hstep [Hids Hone].
  destruct Hstep as [chat_request now st|chat_request user_message choice now st].
  - unfold post_begin.
    destruct (String.eqb _ _); cbn [snd]; [done|].
    by apply (create_append_ids _ _ now st).
  - unfold post_end.
    by apply (create_append_ids "Bot" _ now st).
Qed.

Lemma chat_ids_are_consecutive_witness :
  let st := (post_begin (ChatRequest.mk "bob" "hi") 7
               (post_begin (ChatRequest.mk "ann" "hello") 5 chat_start).2).2 in
  ChatMessage.id <$> CHAT_MESSAGES st = seqZ 1 (message_id_counter st - 1) ∧
  1 ≤ message_id_counter st.
Proof.
  intros st. refine (chat_ids_are_consecutive st _).
  eapply rtc_l; [apply (step_begin (ChatRequest.mk "ann" "hello") 5)|].
  apply rtc_once. apply (step_begin (ChatRequest.mk "bob" "hi") 7).
Defined.

Lemma keyword_reply_first (items before after : list (string * string))
    (keyword reply message_lower : string) :
  items = before ++ (keyword, reply) :: after →
  Forall (λ item, py_in item.1 message_lower = false) before →
  py_in keyword message_lower = true →
  keyword_reply items message_lower = Some reply.
Proof.
  intros -> Hbefore Hin. induction Hbefore as [|[k r] before Hk _ IH]; simpl.
  - by rewrite Hin.
  - simpl in Hk. by rewrite Hk.
Qed.

Lemma keyword_reply_None (items : list (string * string)) (message_lower : string) :
  Forall (λ item, py_in item.1 message_lower = false) items →
  keyword_reply items message_lower = None.
Proof.
  induction 1 as [|[k r] items Hk _ IH]; simpl; [done|].
  simpl in Hk. by rewrite Hk.
Qed.

Lemma keyword_reply_Some (items : list (string * string))
    (message_lower reply : string) :
  keyword_reply items message_lower = Some reply → reply ∈ items.*2.
Proof.
  induction items as [|[k r] items IH]; simpl; [done|].
  destruct (py_in k message_lower).
  - intros [= ->]. by apply elem_of_cons; left.
  - intros Hr. apply elem_of_cons; right. by apply IH.
Qed.

Lemma random_choice_elem (seq : list string) (choice : nat) :
  seq ≠ [] → random_choice seq choice ∈ seq.
Proof.
  intros Hseq. unfold random_choice. rewrite nth_lookup.
  assert (choice `mod` length seq < length seq)%nat as Hlt.
  { apply Nat.mod_upper_bound. by destruct seq. }
  apply lookup_lt_is_Some_2 in Hlt as [x Hx]. rewrite Hx. simpl.
  by eapply list_elem_of_lookup_2.
Qed.

(** The reply of the bot is the reply of the first keyword, in the order
    of the dict, that occurs in the lowercased message, also inside a
    longer word; when no keyword occurs there it is one of the generic
    replies. *)
Theorem bot_reply_follows_first_keyword `{PyStr} (choice : nat)
    (message : string) :
  (∀ before keyword reply after,
     KEYWORD_REPLIES = before ++ (keyword, reply) :: after →
     Forall (λ item, ¬ part_of item.1 (lower message)) before →
     part_of keyword (lower message) →
     generate_bot_reply choice message = reply) ∧
  (Forall (λ item, ¬ part_of item.1 (lower message)) KEYWORD_REPLIES →
   generate_bot_reply choice message ∈ BOT_REPLIES) ∧
  generate_bot_reply choice message ∈ KEYWORD_REPLIES.*2 ++ BOT_REPLIES.
Proof.
  assert (∀ items : list (string * string),
            Forall (λ item, ¬ part_of item.1 (lower message)) items →
            Forall (λ item, py_in item.1 (lower message) = false) items) as Hnone.
  { intros items Hall. eapply Forall_impl; [exact Hall|]. intros item Hitem.
    destruct (py_in item.1 (lower message)) eqn:Hin; [|done].
    destruct Hitem. by apply py_in_spec. }
  unfold generate_bot_reply. split; [|split].
  - intros before keyword reply after Hsplit Hbefore Hocc.
    rewrite (keyword_reply_first _ before after keyword reply _ Hsplit); [done| |].
    + by apply Hnone.
    + by apply py_in_spec.
  - intros Hall. rewrite keyword_reply_None by (by apply Hnone).
    by apply random_choice_elem.
  - destruct (keyword_reply KEYWORD_REPLIES (lower message)) as [reply|] eqn:Hk.
    + apply elem_of_app. left. by eapply keyword_reply_Some.
    + apply elem_of_app. right. by apply random_choice_elem.
Qed.

Lemma bot_reply_follows_first_keyword_witness :
  generate_bot_reply 4 "That was HELPful, thanks"
  = "Sure! What do you need assistance with?".
Proof.
  refine (proj1 (bot_reply_follows_first_keyword 4 "That was HELPful, thanks")
            [("hello", "Hi there! How can I help you?")] "help" _ _ eq_refl _ _).
  - constructor; [|constructor]. unfold part_of.
    rewrite <- py_in_spec. by vm_compute.
  - apply py_in_spec. by vm_compute.
Defined.

(** The stored messages come newest first; each is a stored message, of
    the requested sender when a sender is given; and the limit cuts a
    prefix, a limit of 0 cutting nothing and a negative limit leaving out
    that many of the oldest. *)
Theorem chat_messages_newest_first (limit : option Z) (sender : option string)
    (st : chat) :
  let all := get_chat_messages None sender st in
  StronglySorted (λ a b, ChatMessage.timestamp b ≤ ChatMessage.timestamp a)
    (get_chat_messages limit sender st) ∧
  (∀ msg, msg ∈ get_chat_messages limit sender st →
     msg ∈ CHAT_MESSAGES st ∧
     ∀ s, truthy sender = Some s → ChatMessage.sender msg = s) ∧
  all ≡ₚ match truthy sender with
         | Some s => filter (λ msg, ChatMessage.sender msg = s) (CHAT_MESSAGES st)
         | None => CHAT_MESSAGES st
         end ∧
  get_chat_messages limit sender st
  = match limit with
    | None => all
    | Some n =>
        if n =? 0 then all
        else if n <? 0 then take (length all - Z.to_nat (- n)) all
        else take (Z.to_nat n) all
    end.
Proof.
  intros all. unfold all, get_chat_messages.
  split; [apply sort_and_cut_sorted|].
  split; [|split; [apply sorted_reverse_perm|]].
  - intros msg Hin. apply sort_and_cut_sublist in Hin.
    destruct (truthy sender) as [s|].
    + apply list_elem_of_filter in Hin as [Hs Hin]. split; [done|].
      by intros ? [= <-].
    + by split.
  - rewrite sort_and_cut. cbn [nonzero].
    destruct limit as [n|]; [|done]. destruct (n =? 0); [done|].
    by rewrite (Permutation_length (sorted_reverse_perm _ _)).
Qed.
